(** * Gale-Shapley matching demo ([matches.py]): model and properties

    The agents ([Person], [Proposer], [Proposee]) and the two matching
    loops ([doMatch], [doGreedyMatch]) of [matches.py] are embedded as
    executable definitions.  Python dictionaries are finite maps keyed by
    strings, Python exceptions are values of an error monad, and the loop
    is iterated with an explicit bound on the number of iterations. *)

From stdpp Require Import gmap strings list fin_maps.
From Stdlib Require Import Lia.

(** ** Exceptions *)

Inductive exn : Type :=
  | KeyError (key : string)
  | IndexError.

Inductive result (A : Type) : Type :=
  | Ok (a : A)
  | Raise (e : exn).
Arguments Ok {A} a.
Arguments Raise {A} e.

#[global] Instance result_ret : MRet result := fun _ a => Ok a.
#[global] Instance result_bind : MBind result := fun _ _ f r =>
  match r with
  | Ok a => f a
  | Raise e => Raise e
  end.

(** [d[k]] on a dictionary. *)
Definition getitem {V : Type} (d : gmap string V) (k : string) : result V :=
  match d !! k with
  | Some v => Ok v
  | None => Raise (KeyError k)
  end.

(** Truth value of [if x:] where [x] is [None] or a string. *)
Definition truthy (x : option string) : bool :=
  match x with
  | None => false
  | Some s => negb (String.eqb s EmptyString)
  end.

(** ** Agents *)

Record Person : Type := mkPerson {
  name : string;
  priorities : list string;
  partner : option string;
  rank : option nat
}.

Definition Person_init (nm : string) (prio : list string) : Person :=
  {| name := nm; priorities := prio; partner := None; rank := None |}.

Definition set_partner (v : option string) (p : Person) : Person :=
  {| name := name p; priorities := priorities p; partner := v; rank := rank p |}.

Definition set_rank (v : option nat) (p : Person) : Person :=
  {| name := name p; priorities := priorities p; partner := partner p; rank := v |}.

Record Proposer : Type := mkProposer {
  proposer_person :> Person;
  proposalIndex : nat
}.

Definition Proposer_init (nm : string) (prio : list string) : Proposer :=
  {| proposer_person := Person_init nm prio; proposalIndex := 0 |}.

Definition Proposer_upd (f : Person -> Person) (m : Proposer) : Proposer :=
  {| proposer_person := f m; proposalIndex := proposalIndex m |}.

(** [Proposer.nextProposal]: the returned value and the object afterwards. *)
Definition nextProposal (self : Proposer) : option string * Proposer :=
  if length (priorities self) <=? proposalIndex self then (None, self)
  else
    match priorities self !! proposalIndex self with
    | Some goal =>
        (Some goal,
         {| proposer_person := proposer_person self;
            proposalIndex := proposalIndex self + 1 |})
    | None => (None, self)
    end.

Record Proposee : Type := mkProposee {
  proposee_person :> Person;
  ranking : gmap string nat
}.

Definition Proposee_upd (f : Person -> Person) (q : Proposee) : Proposee :=
  {| proposee_person := f q; ranking := ranking q |}.

(** The reverse lookup built in [Proposee.__init__]:
    [for rank in range(len(priorities)): ranking[priorities[rank]] = rank]. *)
Fixpoint build_ranking (prio : list string) (rk : nat) (acc : gmap string nat)
  : gmap string nat :=
  match prio with
  | [] => acc
  | s :: rest => build_ranking rest (S rk) (<[s := rk]> acc)
  end.

Definition Proposee_init (nm : string) (prio : list string) : Proposee :=
  {| proposee_person := Person_init nm prio;
     ranking := build_ranking prio 0 ∅ |}.

(** [Proposee.evaluateProposal]: the answer and the object afterwards. *)
Definition evaluateProposal (self : Proposee) (suitor : string)
  : result (bool * Proposee) :=
  match ranking self !! suitor with
  | Some rs =>
      ok ← match partner self with
           | None => Ok true
           | Some p => rp ← getitem (ranking self) p; Ok (rs <? rp)
           end;
      if (ok : bool)
      then Ok (true, Proposee_upd (set_rank (Some (rs + 1))) self)
      else Ok (false, self)
  | None => Ok (false, self)
  end.

(** [Proposee.evaluateGreedily]. *)
Definition evaluateGreedily (self : Proposee) (suitor : string)
  : result (bool * Proposee) :=
  match ranking self !! suitor with
  | Some rs =>
      match partner self with
      | None => Ok (true, Proposee_upd (set_rank (Some (rs + 1))) self)
      | Some _ => Ok (false, self)
      end
  | None => Ok (false, self)
  end.

(** ** The matching engine *)

Record State : Type := mkState {
  proposerPref : gmap string Proposer;
  proposees : gmap string Proposee;
  unmatched : list string
}.

(** What one iteration did (the lines the verbose mode prints). *)
Inductive event : Type :=
  | NoMoreOptions (m : string)
  | Rejects (who m : string)
  | Accepts (who m : string) (dumped : option string).

Definition policy : Type := Proposee -> string -> result (bool * Proposee).

(** The dump branch: [if who.partner: mOld = proposerPref[who.partner]; ...].
    Returns the dictionary, the queue and the name printed as dumped. *)
Definition dump (who : Proposee) (pp : gmap string Proposer) (um : list string)
  : result (gmap string Proposer * list string * option string) :=
  if truthy (partner who) then
    match partner who with
    | Some old =>
        mOld ← getitem pp old;
        let mOld' := Proposer_upd (fun p => set_rank (Some 0) (set_partner None p)) mOld in
        Ok (<[old := mOld']> pp, um ++ [name mOld'], Some (name mOld'))
    | None => Ok (pp, um, None)
    end
  else Ok (pp, um, None).

(** The body of the [while len(unmatched) > 0] loop.  The two loops of the
    source differ only in the method called on [who].  Objects live in the
    dictionaries and are written back under their key after each update;
    [m2] is the object [m] as it stands after the dump branch, which would
    be [mOld] itself if [who.partner] were the key of [m]. *)
Definition loop_body (evaluate : policy) (st : State) : result (event * State) :=
  match unmatched st with
  | [] => Raise IndexError
  | k :: _ =>
      m ← getitem (proposerPref st) k;
      let '(n, m1) := nextProposal m in
      let pp1 := <[k := m1]> (proposerPref st) in
      match n with
      | None =>
          Ok (NoMoreOptions (name m1),
              {| proposerPref := pp1; proposees := proposees st;
                 unmatched := tail (unmatched st) |})
      | Some n =>
          who ← getitem (proposees st) n;
          '(accepted, who1) ← evaluate who (name m1);
          if (accepted : bool) then
            '(pp2, um2, dumped) ← dump who1 pp1 (unmatched st);
            let who2 := Proposee_upd (set_partner (Some (name m1))) who1 in
            let m2 := default m1 (pp2 !! k) in
            let m3 := Proposer_upd
                        (fun p => set_rank (Some (proposalIndex m2))
                                    (set_partner (Some (name who2)) p)) m2 in
            Ok (Accepts (name who2) (name m1) dumped,
                {| proposerPref := <[k := m3]> pp2;
                   proposees := <[n := who2]> (proposees st);
                   unmatched := tail um2 |})
          else
            Ok (Rejects (name who1) (name m1),
                {| proposerPref := pp1;
                   proposees := <[n := who1]> (proposees st);
                   unmatched := unmatched st |})
      end
  end.

Inductive outcome : Type :=
  | Finished (trace : list event) (st : State)
  | Raised (e : exn)
  | OutOfFuel.

(** At most [fuel] executions of the body of [while len(unmatched) > 0]:
    the events so far and the state at the quiescent point reached. *)
Fixpoint iterations (evaluate : policy) (fuel : nat) (st : State)
  : result (list event * State) :=
  match fuel with
  | 0 => Ok ([], st)
  | S fuel' =>
      match unmatched st with
      | [] => Ok ([], st)
      | _ :: _ =>
          '(e, st') ← loop_body evaluate st;
          '(tr, st'') ← iterations evaluate fuel' st';
          Ok (e :: tr, st'')
      end
  end.

(** The whole loop: it is finished when the queue is empty. *)
Definition loop (evaluate : policy) (fuel : nat) (st : State) : outcome :=
  match iterations evaluate fuel st with
  | Ok (tr, st') =>
      match unmatched st' with
      | [] => Finished tr st'
      | _ :: _ => OutOfFuel
      end
  | Raise e => Raised e
  end.

(** Dictionaries built by [d[person] = C(person, priority)] over the parsed
    list, and the key order of the resulting dictionary. *)
Definition build_dict {V : Type} (mk : string -> list string -> V)
    (l : list (string * list string)) : gmap string V :=
  foldl (fun d pr => <[pr.1 := mk pr.1 pr.2]> d) ∅ l.

Definition dict_keys (l : list (string * list string)) : list string :=
  foldl (fun ks pr => if bool_decide (pr.1 ∈ ks) then ks else ks ++ [pr.1]) [] l.

Definition init_state (proposerList proposeeList : list (string * list string))
  : State :=
  {| proposerPref := build_dict Proposer_init proposerList;
     proposees := build_dict Proposee_init proposeeList;
     unmatched := dict_keys proposerList |}.

Definition doMatch (fuel : nat)
    (proposerList proposeeList : list (string * list string)) : outcome :=
  loop evaluateProposal fuel (init_state proposerList proposeeList).

Definition doGreedyMatch (fuel : nat)
    (proposerList proposeeList : list (string * list string)) : outcome :=
  loop evaluateGreedily fuel (init_state proposerList proposeeList).

(** Reading the result. *)
Definition partner_of_proposer (st : State) (k : string) : option string :=
  p ← proposerPref st !! k; partner (proposer_person p).

Definition partner_of_proposee (st : State) (k : string) : option string :=
  q ← proposees st !! k; partner (proposee_person q).

(** ** Agents after an update, and acceptance policies *)

Implicit Types (m mOld : Proposer) (q who : Proposee).

Definition advance (m : Proposer) : Proposer :=
  {| proposer_person := proposer_person m;
     proposalIndex := proposalIndex m + 1 |}.

Definition dumped (m : Proposer) : Proposer :=
  Proposer_upd (fun p => set_rank (Some 0) (set_partner None p)) m.

Definition matched (who : string) (m : Proposer) : Proposer :=
  Proposer_upd
    (fun p => set_rank (Some (proposalIndex m)) (set_partner (Some who) p)) m.

Definition ranked (rs : nat) (q : Proposee) : Proposee :=
  Proposee_upd (set_rank (Some (rs + 1))) q.

Definition engaged (suitor : string) (q : Proposee) : Proposee :=
  Proposee_upd (set_partner (Some suitor)) q.

(** What the engine relies on in an acceptance policy. *)
Definition accepts_when (q : Proposee) (rs : nat) : Prop :=
  partner q = None \/
  exists p rp, partner q = Some p /\ ranking q !! p = Some rp /\ rs < rp.

Definition policy_ok (evaluate : policy) : Prop :=
  forall (q : Proposee) s b q', evaluate q s = Ok (b, q') ->
    (b = false /\ q' = q) \/
    (b = true /\ exists rs, ranking q !! s = Some rs /\ q' = ranked rs q /\
                             accepts_when q rs).

Definition policy_total (evaluate : policy) : Prop :=
  forall (q : Proposee) s,
    (forall p, partner q = Some p -> is_Some (ranking q !! p)) ->
    exists b q', evaluate q s = Ok (b, q').

(** ** One iteration, case by case (specification relations) *)

Inductive dump_spec (who : Proposee) (pp : gmap string Proposer)
    (um : list string)
  : gmap string Proposer * list string * option string -> Prop :=
  | dump_none :
      truthy (partner who) = false ->
      dump_spec who pp um (pp, um, None)
  | dump_some old (mOld : Proposer) :
      partner who = Some old -> old <> EmptyString ->
      pp !! old = Some mOld ->
      dump_spec who pp um
        (<[old := dumped mOld]> pp, um ++ [name mOld], Some (name mOld)).

Inductive body_spec (evaluate : policy) (st : State) : event -> State -> Prop :=
  | body_exhausted k rest (m : Proposer) :
      unmatched st = k :: rest -> proposerPref st !! k = Some m ->
      length (priorities m) <= proposalIndex m ->
      body_spec evaluate st (NoMoreOptions (name m))
        {| proposerPref := <[k := m]> (proposerPref st);
           proposees := proposees st; unmatched := rest |}
  | body_reject k rest (m : Proposer) n (who who1 : Proposee) :
      unmatched st = k :: rest -> proposerPref st !! k = Some m ->
      priorities m !! proposalIndex m = Some n ->
      proposees st !! n = Some who ->
      evaluate who (name m) = Ok (false, who1) ->
      body_spec evaluate st (Rejects (name who1) (name m))
        {| proposerPref := <[k := advance m]> (proposerPref st);
           proposees := <[n := who1]> (proposees st);
           unmatched := k :: rest |}
  | body_accept k rest (m : Proposer) n (who who1 : Proposee) pp2 um2 d :
      unmatched st = k :: rest -> proposerPref st !! k = Some m ->
      priorities m !! proposalIndex m = Some n ->
      proposees st !! n = Some who ->
      evaluate who (name m) = Ok (true, who1) ->
      dump_spec who1 (<[k := advance m]> (proposerPref st)) (k :: rest)
        (pp2, um2, d) ->
      body_spec evaluate st (Accepts (name who1) (name m) d)
        {| proposerPref :=
             <[k := matched (name who1) (default (advance m) (pp2 !! k))]> pp2;
           proposees := <[n := engaged (name m) who1]> (proposees st);
           unmatched := tail um2 |}.

(** ** Well-formed states *)

Record wf (st : State) : Prop := mk_wf {
  wf_proposer_name : forall k (m : Proposer),
    proposerPref st !! k = Some m -> name m = k;
  wf_proposee_name : forall n (q : Proposee),
    proposees st !! n = Some q -> name q = n;
  wf_unmatched : forall k,
    k ∈ unmatched st -> is_Some (proposerPref st !! k);
  wf_partner : forall n (q : Proposee) p,
    proposees st !! n = Some q -> partner q = Some p ->
    is_Some (proposerPref st !! p) /\
    exists r, ranking q !! p = Some r /\ rank q = Some (r + 1);
  wf_ranking : forall n (q : Proposee) s r,
    proposees st !! n = Some q -> ranking q !! s = Some r ->
    priorities q !! r = Some s
}.

(** Every identifier a proposer lists is the key of a proposee. *)
Definition consistent (st : State) : Prop :=
  forall k (m : Proposer) n,
    proposerPref st !! k = Some m -> n ∈ priorities m ->
    is_Some (proposees st !! n).

(** The check the source leaves to the caller: every listed identifier is
    the name of a proposee. *)
Definition ids_consistent (proposerList proposeeList : list (string * list string))
  : bool :=
  forallb (fun pr => forallb (fun n => bool_decide (n ∈ proposeeList.*1)) pr.2)
          proposerList.

(** What [parseFile] ensures ([if name:]): no proposer has the empty name. *)
Definition names_nonempty (proposerList : list (string * list string)) : bool :=
  forallb (fun pr => negb (String.eqb pr.1 EmptyString)) proposerList.

(** ** Termination measure *)

(** Candidates a proposer has not tried yet. *)
Definition remaining (st : State) (k : string) : nat :=
  match proposerPref st !! k with
  | Some m => length (priorities (proposer_person m)) - proposalIndex m
  | None => 0
  end.

Definition measure (ks : list string) (st : State) : nat :=
  sum_list (remaining st <$> ks) + length (unmatched st).

(** The sum of the proposers' preference-list lengths and the number of
    proposers, read off the dictionary built from the parsed list. *)
Definition preference_total (proposerList : list (string * list string)) : nat :=
  sum_list
    ((fun k =>
        match build_dict Proposer_init proposerList !! k with
        | Some m => length (priorities (proposer_person m))
        | None => 0
        end) <$> dict_keys proposerList).

Definition proposer_count (proposerList : list (string * list string)) : nat :=
  length (dict_keys proposerList).

(** ** Matching invariants *)

Record matching (st : State) : Prop := mk_matching {
  mt_nonempty : forall k,
    is_Some (proposerPref st !! k) -> k <> EmptyString;
  mt_nodup : NoDup (unmatched st);
  mt_unmatched : forall k m,
    k ∈ unmatched st -> proposerPref st !! k = Some m -> partner m = None;
  mt_proposer : forall k m n,
    proposerPref st !! k = Some m -> partner m = Some n ->
    exists q, proposees st !! n = Some q /\ partner q = Some k;
  mt_proposee : forall n q k,
    proposees st !! n = Some q -> partner q = Some k ->
    exists m, proposerPref st !! k = Some m /\ partner m = Some n
}.

(** The iteration in a well-formed state whose partner fields agree: names
    are keys, the proposer at the head of the queue is free, and a displaced
    partner is another proposer. *)
Inductive engine_step (evaluate : policy) (st : State) : event -> State -> Prop :=
  | step_exhausted k rest m :
      unmatched st = k :: rest -> proposerPref st !! k = Some m ->
      partner m = None ->
      length (priorities m) <= proposalIndex m ->
      engine_step evaluate st (NoMoreOptions k)
        {| proposerPref := proposerPref st; proposees := proposees st;
           unmatched := rest |}
  | step_reject k rest m n who :
      unmatched st = k :: rest -> proposerPref st !! k = Some m ->
      partner m = None ->
      priorities m !! proposalIndex m = Some n ->
      proposees st !! n = Some who ->
      evaluate who k = Ok (false, who) ->
      engine_step evaluate st (Rejects n k)
        {| proposerPref := <[k := advance m]> (proposerPref st);
           proposees := proposees st; unmatched := k :: rest |}
  | step_accept_free k rest m n who rs :
      unmatched st = k :: rest -> proposerPref st !! k = Some m ->
      partner m = None ->
      priorities m !! proposalIndex m = Some n ->
      proposees st !! n = Some who ->
      evaluate who k = Ok (true, ranked rs who) ->
      ranking who !! k = Some rs -> partner who = None ->
      engine_step evaluate st (Accepts n k None)
        {| proposerPref := <[k := matched n (advance m)]> (proposerPref st);
           proposees := <[n := engaged k (ranked rs who)]> (proposees st);
           unmatched := rest |}
  | step_accept_dump k rest m n who rs old mOld ro :
      unmatched st = k :: rest -> proposerPref st !! k = Some m ->
      partner m = None ->
      priorities m !! proposalIndex m = Some n ->
      proposees st !! n = Some who ->
      evaluate who k = Ok (true, ranked rs who) ->
      ranking who !! k = Some rs -> partner who = Some old ->
      old <> k -> proposerPref st !! old = Some mOld ->
      partner mOld = Some n ->
      ranking who !! old = Some ro -> rs < ro ->
      engine_step evaluate st (Accepts n k (Some old))
        {| proposerPref :=
             <[k := matched n (advance m)]>
               (<[old := dumped mOld]> (proposerPref st));
           proposees := <[n := engaged k (ranked rs who)]> (proposees st);
           unmatched := rest ++ [old] |}.

(** ** Stability invariants *)

(** [q] has turned [k] down for good: [k] is not ranked by [q], or [q] holds
    a partner it ranks strictly better than [k]. *)
Definition refuses (q : Proposee) (k : string) : Prop :=
  ranking q !! k = None \/
  exists p rp rk, partner q = Some p /\ ranking q !! p = Some rp /\
                  ranking q !! k = Some rk /\ rp < rk.

Record courtship (st : State) : Prop := mk_courtship {
  cs_tried : forall k m i n,
    proposerPref st !! k = Some m -> i < proposalIndex m ->
    priorities m !! i = Some n ->
    partner m = Some n \/ exists q, proposees st !! n = Some q /\ refuses q k;
  cs_last : forall k m n,
    proposerPref st !! k = Some m -> partner m = Some n ->
    exists i, proposalIndex m = S i /\ priorities m !! i = Some n
}.

(** ** Stability *)

(** Position of the first occurrence, as [list.index]. *)
Definition index_of (s : string) (l : list string) : option nat :=
  fst <$> list_find (fun x => x = s) l.

(** The proposer ranks [r] strictly better than [cur]: [r] is listed and
    comes first (an unlisted [cur] is worse than every listed name). *)
Definition proposer_prefers (m : Proposer) (r cur : string) : bool :=
  match index_of r (priorities m), index_of cur (priorities m) with
  | Some i, Some j => i <? j
  | Some _, None => true
  | None, _ => false
  end.

(** The proposee ranks [p] strictly better than its own partner; without a
    partner every ranked suitor is preferred. *)
Definition proposee_prefers (q : Proposee) (p : string) : bool :=
  match ranking q !! p with
  | None => false
  | Some rp =>
      match partner q with
      | None => true
      | Some cur =>
          match ranking q !! cur with
          | Some rc => rp <? rc
          | None => true
          end
      end
  end.

(** [p] is matched, and [p] and [r] would both rather be with each other. *)
Definition blocking_pair (st : State) (p r : string) : bool :=
  match proposerPref st !! p, proposees st !! r with
  | Some m, Some q =>
      match partner (proposer_person m) with
      | Some cur => proposer_prefers m r cur && proposee_prefers q p
      | None => false
      end
  | _, _ => false
  end.

Definition stable (st : State) : Prop :=
  forall p r, blocking_pair st p r = false.

(** The invariant of the stable loop. *)
Definition stable_inv (st : State) : Prop :=
  wf st /\ matching st /\ courtship st.

(** ** Scenarios *)

Definition scen1_proposers : list (string * list string) :=
  [("A", ["X"; "Y"]); ("B", ["X"; "Y"])]%string.
Definition scen1_proposees : list (string * list string) :=
  [("X", ["A"; "B"]); ("Y", ["A"; "B"])]%string.

Definition scen2_proposers : list (string * list string) :=
  [("A", ["X"]); ("B", ["X"; "Y"])]%string.
Definition scen2_proposees : list (string * list string) :=
  [("X", ["B"; "A"]); ("Y", ["B"])]%string.

(** Two proposers with the same single choice. *)
Definition scen3_proposers : list (string * list string) :=
  [("A", ["X"]); ("B", ["X"])]%string.
Definition scen3_proposees : list (string * list string) :=
  [("X", ["A"; "B"])]%string.

(** A proposer lists [Z], which is no proposee. *)
Definition scen4_proposers : list (string * list string) :=
  [("A", ["Z"])]%string.
Definition scen4_proposees : list (string * list string) :=
  [("X", ["A"])]%string.

(** The state after at most [n] iterations of a loop on an input. *)
Definition state_after (evaluate : policy) (n : nat)
    (pl ql : list (string * list string)) : State :=
  match iterations evaluate n (init_state pl ql) with
  | Ok (_, st) => st
  | Raise _ => init_state pl ql
  end.

Definition trace_of (o : outcome) : option (list event) :=
  match o with
  | Finished tr _ => Some tr
  | _ => None
  end.

(** Partner and rank of a proposer in a state. *)
Definition proposer_fields (st : State) (k : string)
  : option (option string * option nat) :=
  m ← proposerPref st !! k;
  Some (partner (proposer_person m), rank (proposer_person m)).

Definition proposee_fields (st : State) (k : string)
  : option (option string * option nat) :=
  q ← proposees st !! k;
  Some (partner (proposee_person q), rank (proposee_person q)).

Definition exhausted_proposer : Proposer :=
  {| proposer_person := Person_init "A" ["X"]; proposalIndex := 1 |}.

Definition fresh_proposer : Proposer := Proposer_init "A" ["X"; "Y"].

Definition engaged_proposee : Proposee :=
  engaged "A" (ranked 1 (Proposee_init "X" ["B"; "A"])).

Definition no_dump (e : event) : Prop :=
  match e with
  | Accepts _ _ (Some _) => False
  | _ => True
  end.

(** Every proposee that has a partner in [st] has the same one in [st']. *)
Definition partners_kept (st st' : State) : Prop :=
  forall r x, partner_of_proposee st r = Some x ->
              partner_of_proposee st' r = Some x.

(** ** Symmetry, displacement and counting *)

Definition symmetric (st : State) : Prop :=
  forall p r, partner_of_proposer st p = Some r <->
              partner_of_proposee st r = Some p.

(** The iteration is a proposal made by [k]. *)
Definition proposes (k : string) (e : event) : bool :=
  match e with
  | NoMoreOptions _ => false
  | Rejects _ p => bool_decide (p = k)
  | Accepts _ p _ => bool_decide (p = k)
  end.

(** Number of proposals [k] has made in a trace. *)
Fixpoint proposals_by (k : string) (tr : list event) : nat :=
  match tr with
  | [] => 0
  | e :: tr' => (if proposes k e then 1 else 0) + proposals_by k tr'
  end.

(** Every cursor counts the proposals its owner has made. *)
Definition cursors_count (tr : list event) (st : State) : Prop :=
  wf st /\
  forall k m, proposerPref st !! k = Some m ->
              proposalIndex m = proposals_by k tr.

Definition proposee_at (st : State) (k : string) : Proposee :=
  default (Proposee_init k []) (proposees st !! k).

(** * The rest of the program *)

(** ** Reading the preference files ([parseFile]) *)

(** [s.split(sep)] for a one-character separator: every occurrence
    separates, empty pieces are kept, and there is always one piece. *)
Fixpoint split_on (sep : Ascii.ascii) (s : string) : list string :=
  match s with
  | EmptyString => [EmptyString]
  | String c s' =>
      if Ascii.eqb c sep then EmptyString :: split_on sep s'
      else
        match split_on sep s' with
        | piece :: rest => String c piece :: rest
        | [] => [String c EmptyString]
        end
  end.

(** [c] occurs in [s]. *)
Fixpoint has_char (c : Ascii.ascii) (s : string) : bool :=
  match s with
  | EmptyString => false
  | String c' s' => Ascii.eqb c' c || has_char c s'
  end.

(** [str.isspace] on the characters below 256 (a string is a sequence of
    8-bit characters here): tab to carriage return, the four separators
    28-31, the space, NEL and the no-break space. *)
Definition py_isspace (c : Ascii.ascii) : bool :=
  let n := Ascii.nat_of_ascii c in
  ((9 <=? n) && (n <=? 13)) || ((28 <=? n) && (n <=? 32))
  || (n =? 133) || (n =? 160).

(** The separators of the file format, [':'] and [','], and the newline. *)
Definition colon : Ascii.ascii := Ascii.ascii_of_nat 58.
Definition comma : Ascii.ascii := Ascii.ascii_of_nat 44.
Definition newline : Ascii.ascii := Ascii.ascii_of_nat 10.

Section Strip.
Variable isspace : Ascii.ascii -> bool.

Fixpoint lstrip (s : string) : string :=
  match s with
  | EmptyString => EmptyString
  | String c s' => if isspace c then lstrip s' else s
  end.

Fixpoint rstrip (s : string) : string :=
  match s with
  | EmptyString => EmptyString
  | String c s' =>
      match rstrip s' with
      | EmptyString => if isspace c then EmptyString else String c EmptyString
      | r => String c r
      end
  end.

(** [s.strip()]. *)
Definition strip (s : string) : string := lstrip (rstrip s).

(** One line of the file: nothing for a line whose name is empty, the
    pair otherwise; [pieces[1]] raises when the line has no colon. *)
Definition parseLine (line : string) : result (option (string * list string)) :=
  let pieces := split_on colon line in
  match pieces !! 0 with
  | None => Raise IndexError
  | Some piece0 =>
      let name := strip piece0 in
      if negb (String.eqb name EmptyString) then
        match pieces !! 1 with
        | Some piece1 => Ok (Some (name, strip <$> split_on comma (strip piece1)))
        | None => Raise IndexError
        end
      else Ok None
  end.

(** [parseFile] on the lines of the file, in order. *)
Fixpoint parseFile (lines : list string) : result (list (string * list string)) :=
  match lines with
  | [] => Ok []
  | line :: rest =>
      entry ← parseLine line;
      people ← parseFile rest;
      Ok (match entry with
          | Some person => person :: people
          | None => people
          end)
  end.
End Strip.

Definition example_lines : list string :=
  ["bob:     alice,carol" ++ String newline EmptyString;
   String newline EmptyString;
   "david:   carol , alice:ignored" ++ String newline EmptyString;
   "eve:"]%string.

(** The two loops as the program runs them on a pair of files: the
    proposers' file is parsed first, then the proposees', then the loop. *)
Definition run_files (isspace : Ascii.ascii -> bool) (evaluate : policy)
    (fuel : nat) (proposerLines proposeeLines : list string) : outcome :=
  match parseFile isspace proposerLines with
  | Raise e => Raised e
  | Ok proposerList =>
      match parseFile isspace proposeeLines with
      | Raise e => Raised e
      | Ok proposeeList =>
          loop evaluate fuel (init_state proposerList proposeeList)
      end
  end.

Definition employers_lines : list string :=
  ["A: X" ++ String newline EmptyString;
   "B: X, Y" ++ String newline EmptyString]%string.

Definition applicants_lines : list string :=
  ["X: B, A" ++ String newline EmptyString;
   String newline EmptyString;
   "Y: B"]%string.

(** ** Observations on runs *)

(** The proposee [k] proposed to in an iteration, if [k] proposed. *)
Definition target_of (k : string) (e : event) : option string :=
  match e with
  | NoMoreOptions _ => None
  | Rejects w p => if bool_decide (p = k) then Some w else None
  | Accepts w p _ => if bool_decide (p = k) then Some w else None
  end.

(** The proposees [k] proposed to in a trace, in order. *)
Definition targets_of (k : string) (tr : list event) : list string :=
  omap (target_of k) tr.

(** Every proposer is waiting in the queue, has a partner, or has run out
    of candidates. *)
Definition settled (st : State) : Prop :=
  forall k m, proposerPref st !! k = Some m ->
    k ∈ unmatched st \/ is_Some (partner m) \/
    length (priorities m) <= proposalIndex m.

(** Both rank fields are the 1-based position of the partner in the
    agent's own list; a proposer's is also its cursor. *)
Definition ranks_are_positions (st : State) : Prop :=
  (forall k m n, proposerPref st !! k = Some m -> partner m = Some n ->
     exists i, priorities m !! i = Some n /\ rank m = Some (i + 1) /\
               proposalIndex m = i + 1) /\
  (forall n q p, proposees st !! n = Some q -> partner q = Some p ->
     exists i, priorities q !! i = Some p /\ rank q = Some (i + 1)).

(** An unmatched proposer [p] lists [r], and [r] ranks [p] strictly better
    than its own partner (or has none). *)
Definition blocking_unmatched (st : State) (p r : string) : bool :=
  match proposerPref st !! p, proposees st !! r with
  | Some m, Some q =>
      match partner (proposer_person m) with
      | None => bool_decide (r ∈ priorities (proposer_person m))
                && proposee_prefers q p
      | Some _ => false
      end
  | _, _ => false
  end.

(** What a proposer has done so far, given the input it was built from. *)
Definition in_order (pl : list (string * list string)) (tr : list event)
    (st : State) : Prop :=
  wf st /\
  forall k m, proposerPref st !! k = Some m ->
    build_dict Proposer_init pl !! k = Some (Proposer_init k (priorities m)) /\
    proposalIndex m <= length (priorities m) /\
    targets_of k tr = take (proposalIndex m) (priorities m).


Definition proposer_at (st : State) (k : string) : Proposer :=
  default (Proposer_init k []) (proposerPref st !! k).

(** The agents of a state are those of the input, with their lists. *)
Definition from_input (pl ql : list (string * list string)) (st : State) : Prop :=
  wf st /\
  (forall k m, proposerPref st !! k = Some m -> (k, priorities m) ∈ pl) /\
  (forall n, n ∈ ql.*1 -> is_Some (proposees st !! n)).

Definition proposer_positions (st : State) : Prop :=
  forall k m n, proposerPref st !! k = Some m -> partner m = Some n ->
    exists i, priorities m !! i = Some n /\ rank m = Some (i + 1) /\
              proposalIndex m = i + 1.

(** From a well-formed state on, a partnered proposee stays partnered and
    the index of its partner in its lookup never grows. *)
Definition at_least_as_good (q : Proposee) (ra : nat) (r : string)
    (st : State) : Prop :=
  wf st /\
  exists (q1 : Proposee) b rb,
    proposees st !! r = Some q1 /\ partner q1 = Some b /\
    ranking q1 = ranking q /\ priorities q1 = priorities q /\
    ranking q !! b = Some rb /\ rb <= ra.

(** Whoever a proposer has proposed to holds it, does not rank it, or has a
    partner. *)
Definition turned_down (st : State) : Prop :=
  forall k m i n,
    proposerPref st !! k = Some m -> i < proposalIndex m ->
    priorities m !! i = Some n ->
    partner m = Some n \/
    exists q, proposees st !! n = Some q /\
              (ranking q !! k = None \/ is_Some (partner q)).

(** ** The report ([printPairings]) *)

(** What [printPairings] can raise: a failed lookup of the partner in
    [proposees], or the addition of a rank that is [None]. *)
Inductive print_exn : Type :=
  | LookupFailed (e : exn)
  | TypeError.

(** The line printed for one proposer. *)
Inductive report_line : Type :=
  | PairedLine (nm : string) (rk : nat) (partnerName : string) (partnerRank : nat)
  | UnpairedLine (nm : string).

(** The four counters, printed after the lines. *)
Record totals : Type := mkTotals {
  totalUtility : nat;
  proposerUtility : nat;
  proposeeUtility : nat;
  matchCt : nat
}.

(** The body of [for prop in proposerPref.values()]. *)
Definition print_one (proposees : gmap string Proposee)
    (out : list report_line) (t : totals) (prop : Proposer)
  : print_exn + (list report_line * totals) :=
  if truthy (partner prop) then
    match partner prop with
    | Some pn =>
        match proposees !! pn with
        | None => inl (LookupFailed (KeyError pn))
        | Some q =>
            match rank (proposer_person prop), rank (proposee_person q) with
            | Some r, Some rq =>
                inr (out ++ [PairedLine (name prop) r pn rq],
                     {| totalUtility := totalUtility t + (r + rq);
                        proposerUtility := proposerUtility t + r;
                        proposeeUtility := proposeeUtility t + rq;
                        matchCt := matchCt t + 1 |})
            | _, _ => inl TypeError
            end
        end
    | None => inr (out, t)
    end
  else inr (out ++ [UnpairedLine (name prop)], t).

Fixpoint print_loop (proposees : gmap string Proposee)
    (values : list Proposer) (out : list report_line) (t : totals)
  : print_exn + (list report_line * totals) :=
  match values with
  | [] => inr (out, t)
  | prop :: rest =>
      match print_one proposees out t prop with
      | inl e => inl e
      | inr (out', t') => print_loop proposees rest out' t'
      end
  end.

(** [printPairings], given the proposers in the order of the dictionary. *)
Definition printPairings (values : list Proposer)
    (proposees : gmap string Proposee)
  : print_exn + (list report_line * totals) :=
  print_loop proposees values []
    {| totalUtility := 0; proposerUtility := 0; proposeeUtility := 0;
       matchCt := 0 |}.

(** [d.values()] for a dictionary whose keys were inserted in [order]. *)
Definition dict_values {V : Type} (order : list string) (d : gmap string V)
  : list V :=
  omap (fun k => d !! k) order.

(** The report on a state of a run started from [proposerList]. *)
Definition report (proposerList : list (string * list string)) (st : State)
  : print_exn + (list report_line * totals) :=
  printPairings (dict_values (dict_keys proposerList) (proposerPref st))
    (proposees st).

(** The line a proposer gets. *)
Definition line_for (proposees : gmap string Proposee) (prop : Proposer)
    (line : report_line) : Prop :=
  if truthy (partner prop) then
    exists pn (q : Proposee) r rq,
      partner prop = Some pn /\ proposees !! pn = Some q /\
      rank prop = Some r /\ rank q = Some rq /\
      line = PairedLine (name prop) r pn rq
  else line = UnpairedLine (name prop).

Definition line_proposer_rank (line : report_line) : nat :=
  match line with
  | PairedLine _ r _ _ => r
  | UnpairedLine _ => 0
  end.

Definition line_proposee_rank (line : report_line) : nat :=
  match line with
  | PairedLine _ _ _ rq => rq
  | UnpairedLine _ => 0
  end.

Definition line_paired (line : report_line) : nat :=
  match line with
  | PairedLine _ _ _ _ => 1
  | UnpairedLine _ => 0
  end.

(** A partnered proposer has a rank, and so has its partner. *)
Definition printable (st : State) : Prop :=
  forall k m n, proposerPref st !! k = Some m -> partner m = Some n ->
    is_Some (rank m) /\
    exists q, proposees st !! n = Some q /\ is_Some (rank q).

(** ** The file format *)

(** [sep.join(pieces)]. *)
Fixpoint join (sep : Ascii.ascii) (pieces : list string) : string :=
  match pieces with
  | [] => EmptyString
  | p :: rest =>
      match rest with
      | [] => p
      | _ :: _ => (p ++ String sep (join sep rest))%string
      end
  end.

Section Format.
Variable isspace : Ascii.ascii -> bool.

Fixpoint all_space (s : string) : bool :=
  match s with
  | EmptyString => true
  | String c s' => isspace c && all_space s'
  end.

(** An entry that a line of the documented format can carry: a non-empty
    name and identifiers without surrounding whitespace, no colon anywhere,
    no comma in an identifier, at least one identifier. *)
Definition entry_ok (entry : string * list string) : Prop :=
  entry.1 <> EmptyString /\ strip isspace entry.1 = entry.1 /\
  has_char colon entry.1 = false /\ entry.2 <> [] /\
  forall p, p ∈ entry.2 ->
    strip isspace p = p /\ has_char comma p = false /\
    has_char colon p = false.

(** [line] is [name: id,id,...], with optional whitespace around the name,
    after the colon and at the end of the line. *)
Definition formats (line : string) (entry : string * list string) : Prop :=
  exists w0 w1 w2 w3,
    all_space w0 = true /\ all_space w1 = true /\
    all_space w2 = true /\ all_space w3 = true /\
    line = (w0 ++ entry.1 ++ w1 ++ String colon (w2 ++ join comma entry.2 ++ w3))%string.
End Format.

Definition format_lines : list string :=
  [("bob:     alice,carol" ++ String newline EmptyString)%string; "eve:X"].

Definition format_people : list (string * list string) :=
  [("bob", ["alice"; "carol"]); ("eve", ["X"])].

(** The final state of the stable loop on the two example files. *)
Definition files_result : State :=
  match run_files py_isspace evaluateProposal 10 employers_lines
          applicants_lines with
  | Finished _ st => st
  | _ => init_state [] []
  end.

(** * Properties *)

(** ** Basic facts about the agents *)

Lemma truthy_true (x : option string) :
  truthy x = true <-> exists s, x = Some s /\ s <> EmptyString.
Proof.
  destruct x as [s|]; simpl.
  - rewrite negb_true_iff. split.
    + intros H. exists s. split; [done|]. intros ->. by rewrite String.eqb_refl in H.
    + intros (s' & [= <-] & Hne). by apply String.eqb_neq.
  - split; [done|]. by intros (s & ? & _).
Qed.

Lemma truthy_false (x : option string) :
  truthy x = false <-> x = None \/ x = Some EmptyString.
Proof.
  destruct x as [s|]; simpl.
  - rewrite negb_false_iff, String.eqb_eq.
    split; [intros ->; by right|]. by intros [|[= ->]].
  - split; [by left|done].
Qed.

Lemma nextProposal_cases (m : Proposer) :
  (length (priorities m) <= proposalIndex m /\ nextProposal m = (None, m)) \/
  (exists goal, priorities m !! proposalIndex m = Some goal /\
                nextProposal m = (Some goal, advance m)).
Proof.
  unfold nextProposal.
  destruct (length (priorities m) <=? proposalIndex m) eqn:Hle.
  - left. apply Nat.leb_le in Hle. done.
  - right. apply Nat.leb_gt in Hle.
    destruct (lookup_lt_is_Some_2 (priorities m) (proposalIndex m) Hle) as [g Hg].
    exists g. by rewrite Hg.
Qed.

Lemma build_ranking_lookup (prio : list string) (rk : nat)
    (acc : gmap string nat) (s : string) (r : nat) :
  build_ranking prio rk acc !! s = Some r ->
  (exists i, prio !! i = Some s /\ r = rk + i) \/ acc !! s = Some r.
Proof.
  revert rk acc. induction prio as [|x prio IH]; intros rk acc H; simpl in H.
  - by right.
  - apply IH in H as [(i & Hi & ->)|H].
    + left. exists (S i). split; [done|lia].
    + destruct (decide (x = s)) as [->|Hne].
      * rewrite lookup_insert_eq in H. simplify_eq.
        left. exists 0. split; [done|lia].
      * rewrite lookup_insert_ne in H by done. by right.
Qed.

Lemma ranking_init_lookup (nm : string) (prio : list string) (s : string) (r : nat) :
  ranking (Proposee_init nm prio) !! s = Some r -> prio !! r = Some s.
Proof.
  intros H. apply build_ranking_lookup in H as [(i & Hi & ->)|H]; [done|].
  by rewrite lookup_empty in H.
Qed.

Lemma evaluateProposal_ok : policy_ok evaluateProposal.
Proof.
  intros q s b q' H. unfold evaluateProposal in H.
  destruct (ranking q !! s) as [rs|] eqn:Hs; [|left; by simplify_eq].
  destruct (partner q) as [p|] eqn:Hp; simpl in H.
  - unfold getitem in H. destruct (ranking q !! p) as [rp|] eqn:Hrp; [|done].
    simpl in H. destruct (rs <? rp) eqn:Hlt; simplify_eq.
    + right. split; [done|]. exists rs. split_and!; [done..|].
      right. exists p, rp. apply Nat.ltb_lt in Hlt. done.
    + by left.
  - simplify_eq. right. split; [done|]. exists rs. split_and!; [done..|]. by left.
Qed.

Lemma evaluateGreedily_ok : policy_ok evaluateGreedily.
Proof.
  intros q s b q' H. unfold evaluateGreedily in H.
  destruct (ranking q !! s) as [rs|] eqn:Hs; [|left; by simplify_eq].
  destruct (partner q) as [p|] eqn:Hp; simplify_eq.
  - by left.
  - right. split; [done|]. exists rs. split_and!; [done..|]. by left.
Qed.

Lemma evaluateProposal_total : policy_total evaluateProposal.
Proof.
  intros q s Hp. unfold evaluateProposal.
  destruct (ranking q !! s) as [rs|]; [|by eauto].
  destruct (partner q) as [p|]; simpl.
  - destruct (Hp p eq_refl) as [rp Hrp]. unfold getitem. rewrite Hrp. simpl.
    destruct (rs <? rp); eauto.
  - eauto.
Qed.

Lemma evaluateGreedily_total : policy_total evaluateGreedily.
Proof.
  intros q s _. unfold evaluateGreedily.
  destruct (ranking q !! s) as [rs|]; [|by eauto].
  destruct (partner q); eauto.
Qed.

(** ** One iteration, case by case *)

Lemma dump_inv who pp um r : dump who pp um = Ok r -> dump_spec who pp um r.
Proof.
  unfold dump. destruct (truthy (partner who)) eqn:Ht.
  - apply truthy_true in Ht as (old & Hold & Hne). rewrite Hold.
    unfold getitem. destruct (pp !! old) as [mOld|] eqn:Hm; [|done].
    simpl. intros [= <-]. by eapply dump_some.
  - intros [= <-]. by apply dump_none.
Qed.

Lemma loop_body_inv evaluate st e st' :
  loop_body evaluate st = Ok (e, st') -> body_spec evaluate st e st'.
Proof.
  unfold loop_body, getitem.
  destruct (unmatched st) as [|k rest] eqn:Hum; [done|].
  destruct (proposerPref st !! k) as [m|] eqn:Hm; simpl; [|done].
  destruct (nextProposal_cases m) as [[Hlen ->]|(n & Hn & ->)].
  - intros [= <- <-]. by eapply body_exhausted.
  - destruct (proposees st !! n) as [who|] eqn:Hwho; simpl; [|done].
    destruct (evaluate who (name m)) as [[[] who1]|] eqn:Hev; simpl; [| |done].
    + destruct (dump who1 _ _) as [[[pp2 um2] d]|] eqn:Hd; simpl; [|done].
      intros [= <- <-]. apply dump_inv in Hd.
      by eapply (body_accept _ _ k rest m n who who1 pp2 um2 d).
    + intros [= <- <-]. by eapply body_reject.
Qed.

(** ** What an iteration leaves unchanged *)

Section Frame.
Variable evaluate : policy.
Hypothesis evaluate_ok : policy_ok evaluate.

Lemma dump_lookup who pp um pp2 um2 d j (m' : Proposer) :
  dump_spec who pp um (pp2, um2, d) -> pp2 !! j = Some m' ->
  exists m : Proposer, pp !! j = Some m /\ (m' = m \/ m' = dumped m).
Proof.
  inversion 1; subst; intros Hj.
  - eauto.
  - destruct (decide (old = j)) as [->|Hne].
    + rewrite lookup_insert_eq in Hj. simplify_eq. eauto.
    + rewrite lookup_insert_ne in Hj by done. eauto.
Qed.

Lemma dump_dom who pp um pp2 um2 d j :
  dump_spec who pp um (pp2, um2, d) -> is_Some (pp !! j) -> is_Some (pp2 !! j).
Proof.
  inversion 1; subst; [done|]. intros Hj.
  destruct (decide (old = j)) as [->|Hne].
  - rewrite lookup_insert_eq. eauto.
  - by rewrite lookup_insert_ne.
Qed.

Lemma body_proposers_frame st e st' j (m' : Proposer) :
  body_spec evaluate st e st' -> proposerPref st' !! j = Some m' ->
  exists m : Proposer, proposerPref st !! j = Some m /\
    name m' = name m /\ priorities m' = priorities m /\
    proposalIndex m <= proposalIndex m' <= proposalIndex m + 1.
Proof.
  destruct 1 as [k rest m Hum Hm Hlen|k rest m n who who1 Hum Hm Hn Hwho Hev
                |k rest m n who who1 pp2 um2 d Hum Hm Hn Hwho Hev Hd];
    simpl; intros Hj.
  - destruct (decide (k = j)) as [->|Hne].
    + rewrite lookup_insert_eq in Hj. simplify_eq. exists m'. split_and!; try done; lia.
    + rewrite lookup_insert_ne in Hj by done. exists m'. split_and!; try done; lia.
  - destruct (decide (k = j)) as [->|Hne].
    + rewrite lookup_insert_eq in Hj. simplify_eq. exists m. simpl. split_and!; try done; lia.
    + rewrite lookup_insert_ne in Hj by done. exists m'. split_and!; try done; lia.
  - assert (Hk : exists mk : Proposer, pp2 !! k = Some mk /\
              (mk = advance m \/ mk = dumped (advance m))).
    { destruct (dump_dom _ _ _ _ _ _ k Hd) as [mk Hmk].
      { rewrite lookup_insert_eq. eauto. }
      destruct (dump_lookup _ _ _ _ _ _ _ _ Hd Hmk) as (m0 & Hm0 & Hcase).
      rewrite lookup_insert_eq in Hm0. simplify_eq. eauto. }
    destruct Hk as (mk & Hmk & Hcase).
    destruct (decide (k = j)) as [->|Hne].
    + rewrite lookup_insert_eq in Hj. rewrite Hmk in Hj. simpl in Hj. simplify_eq.
      exists m. destruct Hcase as [->| ->]; simpl; split_and!; try done; lia.
    + rewrite lookup_insert_ne in Hj by done.
      destruct (dump_lookup _ _ _ _ _ _ _ _ Hd Hj) as (m0 & Hm0 & Hc0).
      rewrite lookup_insert_ne in Hm0 by done. exists m0.
      destruct Hc0 as [->| ->]; simpl; split_and!; try done; lia.
Qed.

Lemma body_proposers_dom st e st' j :
  body_spec evaluate st e st' ->
  is_Some (proposerPref st !! j) -> is_Some (proposerPref st' !! j).
Proof.
  destruct 1 as [k rest m Hum Hm Hlen|k rest m n who who1 Hum Hm Hn Hwho Hev
                |k rest m n who who1 pp2 um2 d Hum Hm Hn Hwho Hev Hd];
    simpl; intros Hj.
  - destruct (decide (k = j)) as [->|Hne];
      [rewrite lookup_insert_eq; eauto|by rewrite lookup_insert_ne].
  - destruct (decide (k = j)) as [->|Hne];
      [rewrite lookup_insert_eq; eauto|by rewrite lookup_insert_ne].
  - destruct (decide (k = j)) as [->|Hne]; [rewrite lookup_insert_eq; eauto|].
    rewrite lookup_insert_ne by done. eapply dump_dom; [done|].
    by rewrite lookup_insert_ne.
Qed.

Lemma body_proposees_frame st e st' j (q' : Proposee) :
  body_spec evaluate st e st' -> proposees st' !! j = Some q' ->
  exists q : Proposee, proposees st !! j = Some q /\
    name q' = name q /\ priorities q' = priorities q /\
    ranking q' = ranking q.
Proof.
  destruct 1 as [k rest m Hum Hm Hlen|k rest m n who who1 Hum Hm Hn Hwho Hev
                |k rest m n who who1 pp2 um2 d Hum Hm Hn Hwho Hev Hd];
    simpl; intros Hj.
  - eauto.
  - destruct (decide (n = j)) as [->|Hne].
    + rewrite lookup_insert_eq in Hj. simplify_eq.
      apply evaluate_ok in Hev as [[_ ->]|[? _]]; [eauto|done].
    + rewrite lookup_insert_ne in Hj by done. eauto.
  - destruct (decide (n = j)) as [->|Hne].
    + rewrite lookup_insert_eq in Hj. simplify_eq.
      apply evaluate_ok in Hev as [[? _]|[_ (rs & Hrs & -> & Hacc)]]; [done|].
      eauto.
    + rewrite lookup_insert_ne in Hj by done. eauto.
Qed.

Lemma body_proposees_dom st e st' j :
  body_spec evaluate st e st' ->
  is_Some (proposees st !! j) -> is_Some (proposees st' !! j).
Proof.
  destruct 1; simpl; intros Hj; [done| |];
    (destruct (decide (n = j)) as [->|Hne];
      [rewrite lookup_insert_eq; eauto|by rewrite lookup_insert_ne]).
Qed.

(** A proposee is either left as it was or takes the proposer at the head
    of the queue, under the condition of the acceptance policy. *)
Lemma body_proposee_change st e st' j (q' : Proposee) :
  body_spec evaluate st e st' -> proposees st' !! j = Some q' ->
  exists q : Proposee, proposees st !! j = Some q /\
    (q' = q \/
     exists k rest (m : Proposer) rs d,
       unmatched st = k :: rest /\ proposerPref st !! k = Some m /\
       priorities m !! proposalIndex m = Some j /\
       ranking q !! name m = Some rs /\ accepts_when q rs /\
       q' = engaged (name m) (ranked rs q) /\
       e = Accepts (name q) (name m) d).
Proof.
  destruct 1 as [k rest m Hum Hm Hlen|k rest m n who who1 Hum Hm Hn Hwho Hev
                |k rest m n who who1 pp2 um2 d Hum Hm Hn Hwho Hev Hd];
    simpl; intros Hj.
  - eauto.
  - destruct (decide (n = j)) as [->|Hne].
    + rewrite lookup_insert_eq in Hj. simplify_eq.
      apply evaluate_ok in Hev as [[_ ->]|[? _]]; [eauto|done].
    + rewrite lookup_insert_ne in Hj by done. eauto.
  - destruct (decide (n = j)) as [->|Hne].
    + rewrite lookup_insert_eq in Hj. simplify_eq.
      apply evaluate_ok in Hev as [[? _]|[_ (rs & Hrs & -> & Hacc)]]; [done|].
      exists who. split; [done|]. right. exists k, rest, m, rs, d. done.
    + rewrite lookup_insert_ne in Hj by done. eauto.
Qed.

(** The queue only loses its head and gains the dumped proposer. *)
Lemma body_unmatched st e st' j :
  body_spec evaluate st e st' -> j ∈ unmatched st' ->
  j ∈ unmatched st \/
  exists (mOld : Proposer) w p,
    e = Accepts w p (Some (name mOld)) /\ j = name mOld /\
    exists old, name mOld = name (default mOld (proposerPref st !! old)) /\
                is_Some (proposerPref st !! old).
Proof.
  destruct 1 as [k rest m Hum Hm Hlen|k rest m n who who1 Hum Hm Hn Hwho Hev
                |k rest m n who who1 pp2 um2 d Hum Hm Hn Hwho Hev Hd];
    simpl; intros Hj.
  - left. rewrite Hum. apply elem_of_cons; by right.
  - left. by rewrite Hum.
  - inversion Hd as [Ht|old mOld Hold Hne Hlk]; subst; simpl in Hj.
    + left. rewrite Hum. apply elem_of_cons; by right.
    + apply elem_of_app in Hj as [Hj|Hj].
      * left. rewrite Hum. apply elem_of_cons; by right.
      * apply list_elem_of_singleton in Hj as ->. right.
        exists mOld, (name who1), (name m). split_and!; [done..|].
        exists old. destruct (decide (k = old)) as [->|Hko].
        -- rewrite lookup_insert_eq in Hlk. simplify_eq. rewrite Hm. simpl. eauto.
        -- rewrite lookup_insert_ne in Hlk by done. rewrite Hlk. simpl. eauto.
Qed.
End Frame.

(** ** Well-formed states are kept, and raise nothing *)

Section WellFormed.
Variable evaluate : policy.
Hypothesis evaluate_ok : policy_ok evaluate.

Lemma wf_body st e st' :
  wf st -> body_spec evaluate st e st' -> wf st'.
Proof.
  intros [Hpn Hqn Hum Hpart Hrk] Hb. split.
  - intros k m' Hk.
    destruct (body_proposers_frame _ _ _ _ _ _ Hb Hk) as (m & Hm & Hname & _).
    rewrite Hname. eauto.
  - intros n q' Hn.
    destruct (body_proposees_frame _ evaluate_ok _ _ _ _ _ Hb Hn)
      as (q & Hq & Hname & _).
    rewrite Hname. eauto.
  - intros k Hk. eapply body_proposers_dom; [done|].
    destruct (body_unmatched _ _ _ _ _ Hb Hk)
      as [Hin|(mOld & who & m & _ & -> & old & Hname & [mo Hold])]; [eauto|].
    rewrite Hold in Hname. simpl in Hname.
    rewrite Hname, (Hpn _ _ Hold). eauto.
  - intros n q' p Hn Hp.
    destruct (body_proposee_change _ evaluate_ok _ _ _ _ _ Hb Hn)
      as (q & Hq & [->|(k & rest & m & rs & d & Hu & Hm & _ & Hrs & _ & -> & _)]).
    + destruct (Hpart _ _ _ Hq Hp) as [Hdom Hr]. split; [|done].
      by eapply body_proposers_dom.
    + simpl in Hp. simplify_eq. split.
      * eapply body_proposers_dom; [done|]. rewrite (Hpn _ _ Hm). eauto.
      * exists rs. done.
  - intros n q' s r Hn Hs.
    destruct (body_proposees_frame _ evaluate_ok _ _ _ _ _ Hb Hn)
      as (q & Hq & _ & Hprio & Hrank).
    rewrite Hprio. rewrite Hrank in Hs. eauto.
Qed.

Lemma consistent_body st e st' :
  consistent st -> body_spec evaluate st e st' -> consistent st'.
Proof.
  intros Hc Hb k m' n Hk Hn.
  destruct (body_proposers_frame _ _ _ _ _ _ Hb Hk) as (m & Hm & _ & Hprio & _).
  rewrite Hprio in Hn. eapply body_proposees_dom; [done|]. eauto.
Qed.

Hypothesis evaluate_total : policy_total evaluate.

(** In a well-formed, consistent state the body raises nothing. *)
Lemma loop_body_no_raise st :
  wf st -> consistent st -> unmatched st <> [] ->
  exists e st', loop_body evaluate st = Ok (e, st').
Proof.
  intros [Hpn Hqn Hum Hpart Hrk] Hc Hne.
  unfold loop_body, getitem.
  destruct (unmatched st) as [|k rest] eqn:Hu; [done|]. clear Hne.
  destruct (Hum k) as [m Hm]; [apply elem_of_cons; by left|]. rewrite Hm. simpl.
  destruct (nextProposal_cases m) as [[Hlen ->]|(n & Hn & ->)]; [eauto|].
  destruct (Hc k m n Hm) as [who Hwho]; [by eapply list_elem_of_lookup_2|].
  rewrite Hwho. simpl.
  destruct (evaluate_total who (name m)) as (b & who1 & Hev).
  { intros p Hp. destruct (Hpart _ _ _ Hwho Hp) as [_ (r & Hr & _)]. eauto. }
  rewrite Hev. simpl. destruct b; [|eauto].
  assert (Hd : exists r, dump who1 (<[k:=advance m]> (proposerPref st)) (k :: rest) = Ok r).
  { unfold dump. destruct (truthy (partner who1)) eqn:Ht; [|eauto].
    destruct (partner who1) as [old|] eqn:Hold; [|eauto].
    apply evaluate_ok in Hev as [[? _]|[_ (rs & Hrs & -> & Hacc)]]; [done|].
    simpl in Hold. destruct (Hpart _ _ _ Hwho Hold) as [[mo Hmo] _].
    unfold getitem. destruct (decide (k = old)) as [->|Hko].
    - rewrite lookup_insert_eq. simpl. eauto.
    - rewrite lookup_insert_ne by done. rewrite Hmo. simpl. eauto. }
  destruct Hd as ([[pp2 um2] d] & ->). simpl. eauto.
Qed.
End WellFormed.

(** ** The initial state *)

Lemma build_dict_acc_lookup {V : Type} (mk : string -> list string -> V)
    (l : list (string * list string)) (acc : gmap string V) k v :
  foldl (fun d pr => <[pr.1 := mk pr.1 pr.2]> d) acc l !! k = Some v ->
  (exists prio, (k, prio) ∈ l /\ v = mk k prio) \/ acc !! k = Some v.
Proof.
  revert acc. induction l as [|[k0 prio0] l IH]; intros acc H; simpl in H.
  - by right.
  - apply IH in H as [(prio & Hin & ->)|H].
    + left. exists prio. split; [|done]. apply elem_of_cons. by right.
    + destruct (decide (k0 = k)) as [->|Hne].
      * rewrite lookup_insert_eq in H. simplify_eq.
        left. exists prio0. split; [|done]. apply elem_of_cons. by left.
      * rewrite lookup_insert_ne in H by done. by right.
Qed.

Lemma build_dict_acc_is_Some {V : Type} (mk : string -> list string -> V)
    (l : list (string * list string)) (acc : gmap string V) k :
  k ∈ l.*1 \/ is_Some (acc !! k) ->
  is_Some (foldl (fun d pr => <[pr.1 := mk pr.1 pr.2]> d) acc l !! k).
Proof.
  revert acc. induction l as [|[k0 prio0] l IH]; intros acc H; simpl in *.
  - destruct H as [H|H]; [|done]. by apply elem_of_nil in H.
  - apply IH. destruct H as [H|H].
    + apply elem_of_cons in H as [->|H]; [|by left].
      right. rewrite lookup_insert_eq. eauto.
    + right. destruct (decide (k0 = k)) as [->|Hne].
      * rewrite lookup_insert_eq. eauto.
      * by rewrite lookup_insert_ne.
Qed.

Lemma build_dict_lookup {V : Type} (mk : string -> list string -> V) l k v :
  build_dict mk l !! k = Some v -> exists prio, (k, prio) ∈ l /\ v = mk k prio.
Proof.
  intros H. apply build_dict_acc_lookup in H as [H|H]; [done|].
  by rewrite lookup_empty in H.
Qed.

Lemma build_dict_is_Some {V : Type} (mk : string -> list string -> V) l k :
  k ∈ l.*1 -> is_Some (build_dict mk l !! k).
Proof. intros H. apply build_dict_acc_is_Some. by left. Qed.

Lemma dict_keys_acc (l : list (string * list string)) (acc : list string) :
  let ks := foldl (fun ks pr => if bool_decide (pr.1 ∈ ks) then ks else ks ++ [pr.1])
                  acc l in
  (forall k, k ∈ ks <-> k ∈ acc \/ k ∈ l.*1) /\ (NoDup acc -> NoDup ks).
Proof.
  revert acc. induction l as [|[k0 prio0] l IH]; intros acc; simpl.
  - split; [|done]. intros k. rewrite elem_of_nil. tauto.
  - destruct (IH (if bool_decide (k0 ∈ acc) then acc else acc ++ [k0])) as [IH1 IH2].
    split.
    + intros k. rewrite IH1, elem_of_cons. case_bool_decide as Hin.
      * intuition (subst; auto).
      * rewrite elem_of_app, list_elem_of_singleton. tauto.
    + intros Hnd. apply IH2. case_bool_decide as Hin; [done|].
      apply NoDup_app. split_and!; [done| |apply NoDup_singleton].
      intros x Hx Hx'. apply list_elem_of_singleton in Hx' as ->. done.
Qed.

Lemma dict_keys_elem (l : list (string * list string)) k :
  k ∈ dict_keys l <-> k ∈ l.*1.
Proof.
  destruct (dict_keys_acc l []) as [H _]. unfold dict_keys. rewrite H.
  rewrite elem_of_nil. tauto.
Qed.

Lemma dict_keys_NoDup (l : list (string * list string)) : NoDup (dict_keys l).
Proof. destruct (dict_keys_acc l []) as [_ H]. apply H, NoDup_nil_2. Qed.

Lemma pair_elem_fst {A B : Type} (l : list (A * B)) a b : (a, b) ∈ l -> a ∈ l.*1.
Proof. intros H. apply list_elem_of_fmap. by exists (a, b). Qed.

Lemma init_state_wf pl ql : wf (init_state pl ql).
Proof.
  split; simpl.
  - intros k m H. by apply build_dict_lookup in H as (prio & _ & ->).
  - intros n q H. by apply build_dict_lookup in H as (prio & _ & ->).
  - intros k H. by apply build_dict_is_Some, dict_keys_elem.
  - intros n q p H Hp. by apply build_dict_lookup in H as (prio & _ & ->).
  - intros n q s r H Hs. apply build_dict_lookup in H as (prio & _ & ->).
    by apply ranking_init_lookup in Hs.
Qed.

Lemma init_state_consistent pl ql :
  ids_consistent pl ql = true -> consistent (init_state pl ql).
Proof.
  intros Hc k m n Hk Hn. simpl in *.
  apply build_dict_lookup in Hk as (prio & Hin & ->). simpl in Hn.
  apply build_dict_is_Some. unfold ids_consistent in Hc.
  rewrite forallb_forall in Hc. apply list_elem_of_In in Hin.
  specialize (Hc _ Hin). simpl in Hc. rewrite forallb_forall in Hc.
  apply list_elem_of_In in Hn. specialize (Hc _ Hn).
  by apply bool_decide_eq_true in Hc.
Qed.

(** ** Termination *)

Lemma sum_list_fmap_le {A : Type} (f g : A -> nat) (l : list A) :
  (forall x, f x <= g x) -> sum_list (f <$> l) <= sum_list (g <$> l).
Proof.
  intros H. induction l as [|x l IH]; csimpl; [done|]. specialize (H x). lia.
Qed.

Lemma sum_list_fmap_lt {A : Type} (f g : A -> nat) (l : list A) (a : A) :
  (forall x, f x <= g x) -> a ∈ l -> f a < g a ->
  sum_list (f <$> l) < sum_list (g <$> l).
Proof.
  intros H Hin Hlt. induction l as [|x l IH]; csimpl.
  - by apply elem_of_nil in Hin.
  - pose proof (sum_list_fmap_le f g l H) as Hle.
    apply elem_of_cons in Hin as [<-|Hin]; [lia|].
    specialize (IH Hin). specialize (H x). lia.
Qed.

Lemma dump_head who pp um pp2 um2 d k (m0 : Proposer) :
  dump_spec who (<[k := m0]> pp) um (pp2, um2, d) ->
  exists mk : Proposer, pp2 !! k = Some mk /\ (mk = m0 \/ mk = dumped m0).
Proof.
  inversion 1 as [Ht|old mOld Hold Hne Hlk]; subst.
  - exists m0. rewrite lookup_insert_eq. eauto.
  - destruct (decide (old = k)) as [->|Hko].
    + rewrite lookup_insert_eq in Hlk. injection Hlk as <-.
      exists (dumped m0). rewrite lookup_insert_eq. eauto.
    + exists m0. rewrite lookup_insert_ne, lookup_insert_eq by done. eauto.
Qed.

Lemma dump_queue who pp um pp2 um2 d :
  dump_spec who pp um (pp2, um2, d) -> length um <= length um2 <= length um + 1.
Proof.
  inversion 1; subst; [lia|]. rewrite length_app. simpl. lia.
Qed.

Section Termination.
Variable evaluate : policy.
Hypothesis evaluate_ok : policy_ok evaluate.

Lemma body_remaining_le st e st' j :
  body_spec evaluate st e st' -> remaining st' j <= remaining st j.
Proof.
  intros Hb. unfold remaining.
  destruct (proposerPref st' !! j) as [m'|] eqn:Hj; [|lia].
  destruct (body_proposers_frame _ _ _ _ _ _ Hb Hj) as (m & -> & _ & -> & Hidx).
  lia.
Qed.

Lemma body_measure ks st e st' :
  (forall k, is_Some (proposerPref st !! k) -> k ∈ ks) ->
  body_spec evaluate st e st' -> measure ks st' < measure ks st.
Proof.
  intros Hks Hb. unfold measure.
  pose proof (sum_list_fmap_le (remaining st') (remaining st) ks
                (fun j => body_remaining_le st e st' j Hb)) as Hle.
  pose proof (fun k => body_remaining_le st e st' k Hb) as Hrem.
  destruct Hb as [k rest m Hum Hm Hlen|k rest m n who who1 Hum Hm Hn Hwho Hev
                 |k rest m n who who1 pp2 um2 d Hum Hm Hn Hwho Hev Hd].
  - rewrite Hum. simpl in *. lia.
  - assert (Hk : k ∈ ks) by (apply Hks; eauto).
    apply lookup_lt_Some in Hn.
    pose proof (sum_list_fmap_lt (remaining _) (remaining st) ks k Hrem Hk) as Hlt.
    rewrite Hum. simpl in *. apply Nat.add_lt_le_mono; [|done].
    apply Hlt. unfold remaining. simpl. rewrite lookup_insert_eq, Hm. simpl. lia.
  - assert (Hk : k ∈ ks) by (apply Hks; eauto).
    apply lookup_lt_Some in Hn.
    pose proof (sum_list_fmap_lt (remaining _) (remaining st) ks k Hrem Hk) as Hlt.
    pose proof (dump_queue _ _ _ _ _ _ Hd) as Hq.
    destruct (dump_head _ _ _ _ _ _ _ _ Hd) as (mk & Hmk & Hcase).
    rewrite Hum. simpl in *. apply Nat.add_lt_le_mono.
    + apply Hlt. unfold remaining. simpl. rewrite lookup_insert_eq, Hm, Hmk. simpl.
      destruct Hcase as [->| ->]; simpl; lia.
    + destruct um2; simpl in *; lia.
Qed.

(** Any property kept by the body holds at every quiescent point. *)
Lemma iterations_preserve (P : State -> Prop) fuel st tr st' :
  (forall s e s', P s -> body_spec evaluate s e s' -> P s') ->
  P st -> iterations evaluate fuel st = Ok (tr, st') -> P st'.
Proof.
  intros Hstep. revert st tr. induction fuel as [|fuel IH]; intros st tr HP H.
  - simpl in H. by simplify_eq.
  - simpl in H. destruct (unmatched st) as [|k rest] eqn:Hum; [by simplify_eq|].
    destruct (loop_body evaluate st) as [[e s1]|] eqn:Hb; simpl in H; [|done].
    destruct (iterations evaluate fuel s1) as [[tr1 s2]|] eqn:Hit;
      simpl in H; [|done].
    simplify_eq. eapply IH; [|done]. eapply Hstep; [done|].
    by apply loop_body_inv.
Qed.

Hypothesis evaluate_total : policy_total evaluate.

Lemma iterations_complete ks fuel st :
  wf st -> consistent st ->
  (forall k, is_Some (proposerPref st !! k) -> k ∈ ks) ->
  measure ks st <= fuel ->
  exists tr st', iterations evaluate fuel st = Ok (tr, st') /\
    unmatched st' = [] /\ length tr <= measure ks st.
Proof.
  revert st. induction fuel as [|fuel IH]; intros st Hwf Hc Hks Hm.
  - exists [], st. simpl. split_and!; [done| |lia].
    unfold measure in Hm. destruct (unmatched st); [done|simpl in Hm; lia].
  - simpl. destruct (unmatched st) as [|k rest] eqn:Hum.
    { exists [], st. simpl. split_and!; [done..|lia]. }
    destruct (loop_body_no_raise _ evaluate_ok evaluate_total st Hwf Hc)
      as (e & s1 & Hb); [by rewrite Hum|].
    rewrite Hb. simpl. pose proof (loop_body_inv _ _ _ _ Hb) as Hs.
    pose proof (body_measure ks _ _ _ Hks Hs) as Hlt.
    destruct (IH s1) as (tr & s2 & Hit & Hdone & Hlen).
    + by eapply wf_body.
    + by eapply consistent_body.
    + intros j [m' Hj].
      destruct (body_proposers_frame _ _ _ _ _ _ Hs Hj) as (m & Hm0 & _).
      apply Hks. eauto.
    + lia.
    + rewrite Hit. simpl. exists (e :: tr), s2. simpl. split_and!; [done..|lia].
Qed.

Lemma loop_complete ks fuel st :
  wf st -> consistent st ->
  (forall k, is_Some (proposerPref st !! k) -> k ∈ ks) ->
  measure ks st <= fuel ->
  exists tr st', loop evaluate fuel st = Finished tr st' /\
    iterations evaluate fuel st = Ok (tr, st') /\
    unmatched st' = [] /\ length tr <= measure ks st.
Proof.
  intros Hwf Hc Hks Hm.
  destruct (iterations_complete ks fuel st Hwf Hc Hks Hm)
    as (tr & st' & Hit & Hdone & Hlen).
  exists tr, st'. unfold loop. rewrite Hit, Hdone. done.
Qed.
End Termination.

Lemma init_state_measure pl ql :
  measure (dict_keys pl) (init_state pl ql) =
  preference_total pl + proposer_count pl.
Proof.
  unfold measure, preference_total, proposer_count. simpl. f_equal.
  f_equal. apply list_fmap_ext. intros i k _. unfold remaining. simpl.
  destruct (build_dict Proposer_init pl !! k) as [m|] eqn:Hk; [|done].
  apply build_dict_lookup in Hk as (prio & _ & ->). simpl. lia.
Qed.

Lemma init_state_keys pl ql k :
  is_Some (proposerPref (init_state pl ql) !! k) -> k ∈ dict_keys pl.
Proof.
  intros [m H]. simpl in H. apply build_dict_lookup in H as (prio & Hin & _).
  apply dict_keys_elem. by eapply pair_elem_fst.
Qed.

(** ** The partner fields agree *)

Section Matching.
Variable evaluate : policy.
Hypothesis evaluate_ok : policy_ok evaluate.

Lemma body_engine_step st e st' :
  wf st -> matching st ->
  body_spec evaluate st e st' -> engine_step evaluate st e st'.
Proof.
  intros [Hpn Hqn Hum Hpart Hrk] [Hne Hnd Hfree Hmp Hmq] Hb.
  destruct Hb as [k rest m Hu Hm Hlen|k rest m n who who1 Hu Hm Hn Hwho Hev
                 |k rest m n who who1 pp2 um2 d Hu Hm Hn Hwho Hev Hd].
  - assert (Hp : partner m = None).
    { eapply Hfree; [|done]. rewrite Hu. apply elem_of_cons. by left. }
    rewrite (Hpn _ _ Hm), (insert_id _ _ _ Hm). by eapply step_exhausted.
  - assert (Hp : partner m = None).
    { eapply Hfree; [|done]. rewrite Hu. apply elem_of_cons. by left. }
    destruct (evaluate_ok _ _ _ _ Hev) as [[_ ->]|[? _]]; [|done].
    rewrite (Hpn _ _ Hm) in *. rewrite (Hqn _ _ Hwho), (insert_id _ _ _ Hwho).
    by eapply step_reject.
  - assert (Hp : partner m = None).
    { eapply Hfree; [|done]. rewrite Hu. apply elem_of_cons. by left. }
    destruct (evaluate_ok _ _ _ _ Hev)
      as [[? _]|[_ (rs & Hrs & -> & Hacc)]]; [done|].
    rewrite (Hpn _ _ Hm) in *. simpl. rewrite (Hqn _ _ Hwho).
    inversion Hd as [Ht|old mOld Hold Hno Hlk]; subst; simpl in *.
    + rewrite lookup_insert_eq. simpl. rewrite insert_insert_eq.
      apply truthy_false in Ht as [Ht|Ht].
      * by eapply step_accept_free.
      * destruct (Hpart _ _ _ Hwho Ht) as [Hdom _]. by apply Hne in Hdom.
    + destruct (Hmq _ _ _ Hwho Hold) as (mo & Hmo & Hpo).
      assert (Hok : old <> k) by (intros ->; simplify_eq).
      rewrite lookup_insert_ne in Hlk by done.
      rewrite Hmo in Hlk. injection Hlk as <-.
      rewrite lookup_insert_ne, lookup_insert_eq by done. simpl.
      rewrite (Hpn _ _ Hmo).
      destruct Hacc as [Hacc|(p & rp & Hacc & Hrp & Hlt)]; [congruence|].
      rewrite Hold in Hacc. injection Hacc as <-.
      rewrite (insert_insert_ne _ old k) by done. rewrite insert_insert_eq.
      by eapply (step_accept_dump _ _ k rest m n who rs old mo rp).
Qed.

Lemma matching_step st e st' :
  matching st -> engine_step evaluate st e st' -> matching st'.
Proof.
  intros [Hne Hnd Hfree Hmp Hmq] Hs.
  destruct Hs as [k rest m Hu Hm Hp Hlen
                 |k rest m n who Hu Hm Hp Hn Hwho Hev
                 |k rest m n who rs Hu Hm Hp Hn Hwho Hev Hrs Hfq
                 |k rest m n who rs old mOld ro Hu Hm Hp Hn Hwho Hev Hrs Hold
                    Hok Hmo Hpo Hro Hlt];
    rewrite Hu in Hnd, Hfree; apply NoDup_cons in Hnd as [Hk Hnd].
  - split; simpl; [done|done| |done|done].
    intros j mj Hj. apply Hfree, elem_of_cons. by right.
  - split; simpl.
    + intros j [mj Hj]. apply Hne. rewrite lookup_insert in Hj.
      case_decide; simplify_eq; eauto.
    + by apply NoDup_cons.
    + intros j mj Hj Hmj. rewrite lookup_insert in Hmj.
      case_decide; simplify_eq; simpl; eauto.
    + intros j mj nj Hj Hpj. rewrite lookup_insert in Hj.
      case_decide; simplify_eq; simpl in *; try congruence; eauto.
    + intros nj qj j Hj Hpj. destruct (Hmq _ _ _ Hj Hpj) as (mj & Hmj & Hpm).
      rewrite lookup_insert. case_decide; simplify_eq; try congruence; eauto.
  - assert (Hrest : forall j, j ∈ rest -> j ∈ k :: rest).
    { intros j Hj. apply elem_of_cons. by right. }
    split; simpl.
    + intros j [mj Hj]. apply Hne. rewrite lookup_insert in Hj.
      case_decide; simplify_eq; eauto.
    + done.
    + intros j mj Hj Hmj. rewrite lookup_insert in Hmj.
      case_decide; simplify_eq; try done; eauto.
    + intros j mj nj Hj Hpj. rewrite lookup_insert in Hj.
      case_decide; simplify_eq; simpl in *.
      * simplify_eq. rewrite lookup_insert_eq. eauto.
      * destruct (Hmp _ _ _ Hj Hpj) as (qj & Hqj & Hpq).
        rewrite lookup_insert. case_decide; simplify_eq; try congruence; eauto.
    + intros nj qj j Hj Hpj. rewrite lookup_insert in Hj.
      case_decide; simplify_eq; simpl in *.
      * simplify_eq. rewrite lookup_insert_eq. eauto.
      * destruct (Hmq _ _ _ Hj Hpj) as (mj & Hmj & Hpm).
        rewrite lookup_insert. case_decide; simplify_eq; try congruence; eauto.
  - assert (Hrest : forall j, j ∈ rest -> j ∈ k :: rest).
    { intros j Hj. apply elem_of_cons. by right. }
    assert (Hor : old ∉ rest).
    { intros Hin. assert (partner mOld = None); [eauto|congruence]. }
    split; simpl.
    + intros j [mj Hj]. apply Hne. rewrite !lookup_insert in Hj.
      repeat case_decide; simplify_eq; eauto.
    + apply NoDup_app. split_and!; [done| |apply NoDup_singleton].
      intros x Hx Hx'. apply list_elem_of_singleton in Hx' as ->. done.
    + intros j mj Hj Hmj. rewrite !lookup_insert in Hmj.
      apply elem_of_app in Hj as [Hj|Hj].
      * repeat case_decide; simplify_eq; simpl; try done; eauto.
      * apply list_elem_of_singleton in Hj as ->.
        repeat case_decide; simplify_eq; simpl; try done; eauto.
    + intros j mj nj Hj Hpj.
      destruct (decide (j = k)) as [->|Hjk].
      { rewrite lookup_insert_eq in Hj. injection Hj as <-. simpl in Hpj.
        injection Hpj as <-. rewrite lookup_insert_eq. eauto. }
      rewrite lookup_insert_ne in Hj by done.
      destruct (decide (j = old)) as [->|Hjo].
      { rewrite lookup_insert_eq in Hj. by injection Hj as <-. }
      rewrite lookup_insert_ne in Hj by done.
      destruct (Hmp _ _ _ Hj Hpj) as (qj & Hqj & Hpq).
      rewrite lookup_insert_ne; [eauto|]. intros ->. congruence.
    + intros nj qj j Hj Hpj.
      destruct (decide (nj = n)) as [->|Hnn].
      { rewrite lookup_insert_eq in Hj. injection Hj as <-. simpl in Hpj.
        injection Hpj as <-. rewrite lookup_insert_eq. eauto. }
      rewrite lookup_insert_ne in Hj by done.
      destruct (Hmq _ _ _ Hj Hpj) as (mj & Hmj & Hpm).
      rewrite !lookup_insert_ne; [eauto| |]; intros ->; congruence.
Qed.
End Matching.

Lemma init_state_matching pl ql :
  names_nonempty pl = true -> matching (init_state pl ql).
Proof.
  intros Hne. split; simpl.
  - intros k [m Hk] ->. apply build_dict_lookup in Hk as (prio & Hin & _).
    unfold names_nonempty in Hne. rewrite forallb_forall in Hne.
    apply list_elem_of_In in Hin. by specialize (Hne _ Hin).
  - apply dict_keys_NoDup.
  - intros k m _ Hk. by apply build_dict_lookup in Hk as (prio & _ & ->).
  - intros k m n Hk Hp. by apply build_dict_lookup in Hk as (prio & _ & ->).
  - intros n q k Hn Hp. by apply build_dict_lookup in Hn as (prio & _ & ->).
Qed.

(** ** The stable loop keeps its invariant *)

(** A rejection by the stable policy: the suitor is not ranked or does not
    beat the current partner. *)
Lemma evaluateProposal_rejects (q : Proposee) (s : string) q' :
  evaluateProposal q s = Ok (false, q') ->
  ranking q !! s = None \/
  exists p rp rk, partner q = Some p /\ ranking q !! p = Some rp /\
                  ranking q !! s = Some rk /\ rp <= rk.
Proof.
  unfold evaluateProposal. destruct (ranking q !! s) as [rk|] eqn:Hs; [|by left].
  destruct (partner q) as [p|] eqn:Hp; simpl; [|done].
  unfold getitem. destruct (ranking q !! p) as [rp|] eqn:Hrp; simpl; [|done].
  destruct (rk <? rp) eqn:Hlt; [done|]. intros _. right.
  apply Nat.ltb_ge in Hlt. exists p, rp, rk. done.
Qed.

Lemma refuses_engaged (q : Proposee) (k j : string) rs :
  ranking q !! k = Some rs ->
  (partner q = None \/
   exists old ro, partner q = Some old /\ ranking q !! old = Some ro /\ rs < ro) ->
  refuses q j -> j <> k -> refuses (engaged k (ranked rs q)) j.
Proof.
  intros Hrs Hacc [Hj|(p & rp & rk & Hp & Hrp & Hrk & Hlt)] Hne; [by left|].
  right. exists k, rs, rk. simpl. split_and!; [done..|].
  destruct Hacc as [Hnone|(old & ro & Hold & Hro & Hlt')]; [congruence|].
  simplify_eq. lia.
Qed.

Lemma courtship_step st e st' :
  wf st -> matching st -> courtship st ->
  engine_step evaluateProposal st e st' -> courtship st'.
Proof.
  intros [Hpn Hqn Hum Hpart Hrk] [Hne Hnd Hfree Hmp Hmq] [Htried Hlast] Hs.
  destruct Hs as [k rest m Hu Hm Hp Hlen
                 |k rest m n who Hu Hm Hp Hn Hwho Hev
                 |k rest m n who rs Hu Hm Hp Hn Hwho Hev Hrs Hfq
                 |k rest m n who rs old mOld ro Hu Hm Hp Hn Hwho Hev Hrs Hold
                    Hok Hmo Hpo Hro Hlt].
  - by split.
  - split; simpl.
    + intros j mj i nj Hj Hi Hnj.
      destruct (decide (j = k)) as [->|Hjk].
      * rewrite lookup_insert_eq in Hj. injection Hj as <-. simpl in *.
        destruct (decide (i = proposalIndex m)) as [->|Hidx].
        -- right. rewrite Hn in Hnj. injection Hnj as <-.
           exists who. split; [done|].
           apply evaluateProposal_rejects in Hev
             as [Hno|(p & rp & rk & Hpw & Hrp & Hrkk & Hle)]; [by left|].
           right. exists p, rp, rk. split_and!; [done..|].
           destruct (Hmq _ _ _ Hwho Hpw) as (mp & Hmp' & Hpmp).
           assert (rp <> rk); [|lia]. intros ->.
           pose proof (Hrk _ _ _ _ Hwho Hrp) as H1.
           pose proof (Hrk _ _ _ _ Hwho Hrkk) as H2.
           rewrite H1 in H2. injection H2 as ->. congruence.
        -- eapply Htried; [done| |done]. lia.
      * rewrite lookup_insert_ne in Hj by done. eauto.
    + intros j mj nj Hj Hpj.
      destruct (decide (j = k)) as [->|Hjk].
      * rewrite lookup_insert_eq in Hj. injection Hj as <-. simpl in *. congruence.
      * rewrite lookup_insert_ne in Hj by done. eauto.
  - split; simpl.
    + intros j mj i nj Hj Hi Hnj.
      destruct (decide (j = k)) as [->|Hjk].
      * rewrite lookup_insert_eq in Hj. injection Hj as <-. simpl in *.
        destruct (decide (i = proposalIndex m)) as [->|Hidx]; [left; congruence|].
        destruct (Htried k m i nj Hm) as [Hc|(q & Hq & Hr)]; [lia|done|congruence|].
        destruct (decide (nj = n)) as [->|Hnn].
        -- rewrite Hwho in Hq. injection Hq as <-.
           destruct Hr as [Hr|(p & rp & rk & Hpw & _)]; congruence.
        -- right. exists q. by rewrite lookup_insert_ne.
      * rewrite lookup_insert_ne in Hj by done.
        destruct (Htried j mj i nj Hj Hi Hnj) as [Hc|(q & Hq & Hr)]; [by left|].
        right. destruct (decide (nj = n)) as [->|Hnn].
        -- rewrite Hwho in Hq. injection Hq as <-. rewrite lookup_insert_eq.
           eexists. split; [done|]. apply refuses_engaged; auto.
        -- exists q. by rewrite lookup_insert_ne.
    + intros j mj nj Hj Hpj.
      destruct (decide (j = k)) as [->|Hjk].
      * rewrite lookup_insert_eq in Hj. injection Hj as <-. simpl in *.
        injection Hpj as <-. exists (proposalIndex m). split; [lia|done].
      * rewrite lookup_insert_ne in Hj by done. eauto.
  - assert (Hacc : partner who = None \/
       exists old ro, partner who = Some old /\ ranking who !! old = Some ro /\ rs < ro).
    { right. eauto. }
    split; simpl.
    + intros j mj i nj Hj Hi Hnj.
      destruct (decide (j = k)) as [->|Hjk].
      * rewrite lookup_insert_eq in Hj. injection Hj as <-. simpl in *.
        destruct (decide (i = proposalIndex m)) as [->|Hidx]; [left; congruence|].
        destruct (Htried k m i nj Hm) as [Hc|(q & Hq & Hr)]; [lia|done|congruence|].
        destruct (decide (nj = n)) as [->|Hnn].
        -- rewrite Hwho in Hq. injection Hq as <-.
           destruct Hr as [Hr|(p & rp & rk & Hpw & Hrp & Hrkk & Hlt')]; [congruence|].
           simplify_eq. lia.
        -- right. exists q. by rewrite lookup_insert_ne.
      * rewrite lookup_insert_ne in Hj by done.
        destruct (decide (j = old)) as [->|Hjo].
        -- rewrite lookup_insert_eq in Hj. injection Hj as <-. simpl in *.
           right. destruct (Htried old mOld i nj Hmo Hi Hnj) as [Hc|(q & Hq & Hr)].
           ++ rewrite Hpo in Hc. injection Hc as <-. rewrite lookup_insert_eq.
              eexists. split; [done|]. right. exists k, rs, ro. done.
           ++ destruct (decide (nj = n)) as [->|Hnn].
              ** rewrite Hwho in Hq. injection Hq as <-. rewrite lookup_insert_eq.
                 eexists. split; [done|]. apply refuses_engaged; auto.
              ** exists q. by rewrite lookup_insert_ne.
        -- rewrite lookup_insert_ne in Hj by done.
           destruct (Htried j mj i nj Hj Hi Hnj) as [Hc|(q & Hq & Hr)]; [by left|].
           right. destruct (decide (nj = n)) as [->|Hnn].
           ++ rewrite Hwho in Hq. injection Hq as <-. rewrite lookup_insert_eq.
              eexists. split; [done|]. apply refuses_engaged; auto.
           ++ exists q. by rewrite lookup_insert_ne.
    + intros j mj nj Hj Hpj.
      destruct (decide (j = k)) as [->|Hjk].
      * rewrite lookup_insert_eq in Hj. injection Hj as <-. simpl in *.
        injection Hpj as <-. exists (proposalIndex m). split; [lia|done].
      * rewrite lookup_insert_ne in Hj by done.
        destruct (decide (j = old)) as [->|Hjo].
        -- rewrite lookup_insert_eq in Hj. by injection Hj as <-.
        -- rewrite lookup_insert_ne in Hj by done. eauto.
Qed.

(** ** Stability from the invariant *)

Lemma index_of_Some s l i :
  index_of s l = Some i -> l !! i = Some s.
Proof.
  unfold index_of. destruct (list_find _ l) as [[j x]|] eqn:Hf; [|done].
  simpl. intros [= ->]. apply list_find_Some in Hf as (Hl & -> & _). done.
Qed.

Lemma index_of_first s l i :
  l !! i = Some s -> exists j, index_of s l = Some j /\ j <= i.
Proof.
  intros Hl. unfold index_of.
  destruct (list_find (fun x => x = s) l) as [[j x]|] eqn:Hf.
  - exists j. split; [done|]. apply list_find_Some in Hf as (_ & _ & Hmin).
    destruct (decide (j <= i)) as [|Hgt]; [done|].
    exfalso. apply (Hmin i s Hl); [lia|done].
  - apply list_find_None in Hf. rewrite Forall_forall in Hf.
    exfalso. apply (Hf s); [|done]. by eapply list_elem_of_lookup_2.
Qed.

Lemma courtship_stable st : courtship st -> stable st.
Proof.
  intros [Htried Hlast] p r. unfold blocking_pair.
  destruct (proposerPref st !! p) as [m|] eqn:Hm; [|done].
  destruct (proposees st !! r) as [q|] eqn:Hq; [|done].
  destruct (partner m) as [cur|] eqn:Hcur; [|done].
  apply andb_false_iff.
  destruct (proposer_prefers m r cur) eqn:Hpp; [right|by left].
  destruct (Hlast _ _ _ Hm Hcur) as (i0 & Hidx & Hi0).
  destruct (index_of_first _ _ _ Hi0) as (j & Hj & Hle).
  unfold proposer_prefers in Hpp. rewrite Hj in Hpp.
  destruct (index_of r (priorities m)) as [i|] eqn:Hi; [|done].
  apply Nat.ltb_lt in Hpp. apply index_of_Some in Hi as Hri.
  destruct (Htried p m i r Hm) as [Hc|(q' & Hq' & Hr)]; [lia|done| |].
  - rewrite Hcur in Hc. injection Hc as ->. rewrite Hi in Hj.
    injection Hj as ->. lia.
  - rewrite Hq in Hq'. injection Hq' as <-. unfold proposee_prefers.
    destruct Hr as [->|(p' & rp & rk & -> & -> & -> & Hlt)]; [done|].
    apply Nat.ltb_ge. lia.
Qed.

Lemma stable_inv_body st e st' :
  stable_inv st -> body_spec evaluateProposal st e st' -> stable_inv st'.
Proof.
  intros (Hwf & Hm & Hc) Hb.
  pose proof (body_engine_step _ evaluateProposal_ok _ _ _ Hwf Hm Hb) as Hs.
  split_and!.
  - by eapply wf_body; [apply evaluateProposal_ok|..].
  - by eapply matching_step.
  - by eapply courtship_step.
Qed.

Lemma init_state_courtship pl ql : courtship (init_state pl ql).
Proof.
  split; simpl.
  - intros k m i n Hk Hi. apply build_dict_lookup in Hk as (prio & _ & ->).
    simpl in Hi. lia.
  - intros k m n Hk Hp. by apply build_dict_lookup in Hk as (prio & _ & ->).
Qed.

Lemma init_state_stable_inv pl ql :
  names_nonempty pl = true -> stable_inv (init_state pl ql).
Proof.
  intros Hne. split_and!.
  - apply init_state_wf.
  - by apply init_state_matching.
  - apply init_state_courtship.
Qed.

(** ** The scenarios of the specification *)

Example scen1_stable_result :
  let st := state_after evaluateProposal 10 scen1_proposers scen1_proposees in
  proposer_fields st "A" = Some (Some "X", Some 1) /\
  proposer_fields st "B" = Some (Some "Y", Some 2) /\
  proposee_fields st "X" = Some (Some "A", Some 1) /\
  proposee_fields st "Y" = Some (Some "B", Some 2).
Proof. vm_compute. done. Qed.

Example scen2_stable_result :
  let st := state_after evaluateProposal 10 scen2_proposers scen2_proposees in
  trace_of (doMatch 10 scen2_proposers scen2_proposees) =
    Some [Accepts "X" "A" None; Accepts "X" "B" (Some "A"); NoMoreOptions "A"] /\
  proposer_fields st "A" = Some (None, Some 0) /\
  proposer_fields st "B" = Some (Some "X", Some 1) /\
  proposee_fields st "X" = Some (Some "B", Some 1) /\
  proposee_fields st "Y" = Some (None, None).
Proof. vm_compute. done. Qed.

Example scen2_greedy_result :
  let st := state_after evaluateGreedily 10 scen2_proposers scen2_proposees in
  trace_of (doGreedyMatch 10 scen2_proposers scen2_proposees) =
    Some [Accepts "X" "A" None; Rejects "X" "B"; Accepts "Y" "B" None] /\
  proposer_fields st "A" = Some (Some "X", Some 1) /\
  proposer_fields st "B" = Some (Some "Y", Some 2) /\
  proposee_fields st "X" = Some (Some "A", Some 2) /\
  proposee_fields st "Y" = Some (Some "B", Some 1).
Proof. vm_compute. done. Qed.

(** ** The agents' methods *)

(** C3 (as amended).  [nextProposal] returns the identifier at the cursor
    and advances the cursor by exactly one while the cursor is inside the
    list; once the cursor has reached the list length it returns the
    exhausted value [None] and leaves the object, cursor included, as it
    was. *)
Theorem nextProposal_spec (self : Proposer) :
  (proposalIndex self < length (priorities self) ->
   exists goal self',
     nextProposal self = (Some goal, self') /\
     priorities self !! proposalIndex self = Some goal /\
     proposalIndex self' = proposalIndex self + 1 /\
     proposer_person self' = proposer_person self) /\
  (length (priorities self) <= proposalIndex self ->
   nextProposal self = (None, self)).
Proof.
  split; intros Hlen.
  - destruct (nextProposal_cases self) as [[Hle _]|(goal & Hg & Hnp)]; [lia|].
    exists goal, (advance self). done.
  - destruct (nextProposal_cases self) as [[_ Hnp]|(goal & Hg & _)]; [done|].
    apply lookup_lt_Some in Hg. lia.
Qed.

Lemma nextProposal_spec_witness :
  (exists goal self',
     nextProposal fresh_proposer = (Some goal, self') /\
     priorities fresh_proposer !! proposalIndex fresh_proposer = Some goal /\
     proposalIndex self' = proposalIndex fresh_proposer + 1 /\
     proposer_person self' = proposer_person fresh_proposer) /\
  nextProposal exhausted_proposer = (None, exhausted_proposer).
Proof.
  split.
  - apply (proj1 (nextProposal_spec fresh_proposer)). simpl. lia.
  - apply (proj2 (nextProposal_spec exhausted_proposer)). simpl. lia.
Defined.

(** C3 (as stated) fails: on an exhausted proposer the call returns [None]
    and the cursor stays at 1 instead of advancing to 2. *)
Lemma nextProposal_exhausted_keeps_cursor :
  fst (nextProposal exhausted_proposer) = None /\
  proposalIndex (snd (nextProposal exhausted_proposer)) = 1 /\
  proposalIndex exhausted_proposer = 1.
Proof. vm_compute. done. Qed.

(** C5.  [evaluateProposal], on a proposee whose current partner (if any)
    is in its rank lookup: a suitor absent from the lookup is rejected and
    nothing changes; a ranked suitor is accepted exactly when the proposee
    has no partner or the suitor's index is strictly lower than the
    partner's; on acceptance [rank] becomes the suitor's 0-based index plus
    one and every other field, [partner] included, is left as it was; on
    rejection nothing changes. *)
Theorem evaluateProposal_spec (self : Proposee) (suitor : string) :
  (forall p, partner self = Some p -> is_Some (ranking self !! p)) ->
  (ranking self !! suitor = None ->
   evaluateProposal self suitor = Ok (false, self)) /\
  (forall rs, ranking self !! suitor = Some rs ->
   exists b self',
     evaluateProposal self suitor = Ok (b, self') /\
     (b = true <->
      partner self = None \/
      exists p rp, partner self = Some p /\ ranking self !! p = Some rp /\
                   rs < rp) /\
     (b = true ->
      rank self' = Some (rs + 1) /\ partner self' = partner self /\
      name self' = name self /\ priorities self' = priorities self /\
      ranking self' = ranking self) /\
     (b = false -> self' = self)).
Proof.
  intros Hp. split.
  - intros Hs. unfold evaluateProposal. by rewrite Hs.
  - intros rs Hs. unfold evaluateProposal. rewrite Hs.
    destruct (partner self) as [p|] eqn:Hpart; simpl.
    + destruct (Hp p eq_refl) as [rp Hrp]. unfold getitem. rewrite Hrp. simpl.
      destruct (rs <? rp) eqn:Hlt.
      * apply Nat.ltb_lt in Hlt. eexists true, _. split; [done|].
        split_and!; [|done|done].
        split; [|done]. intros _. right. exists p, rp. done.
      * apply Nat.ltb_ge in Hlt. eexists false, _. split; [done|].
        split_and!; [|done|done].
        split; [done|]. intros [?|(p' & rp' & ? & ? & ?)]; [done|].
        simplify_eq. lia.
    + eexists true, _. split; [done|]. split_and!; [|done|done].
      split; [|done]. intros _. by left.
Qed.

Lemma evaluateProposal_spec_witness :
  (ranking engaged_proposee !! "C" = None ->
   evaluateProposal engaged_proposee "C" = Ok (false, engaged_proposee)) /\
  (forall rs, ranking engaged_proposee !! "B" = Some rs ->
   exists b self',
     evaluateProposal engaged_proposee "B" = Ok (b, self') /\
     (b = true <->
      partner engaged_proposee = None \/
      exists p rp, partner engaged_proposee = Some p /\
                   ranking engaged_proposee !! p = Some rp /\ rs < rp) /\
     (b = true ->
      rank self' = Some (rs + 1) /\ partner self' = partner engaged_proposee /\
      name self' = name engaged_proposee /\
      priorities self' = priorities engaged_proposee /\
      ranking self' = ranking engaged_proposee) /\
     (b = false -> self' = engaged_proposee)).
Proof.
  split.
  - apply (evaluateProposal_spec engaged_proposee "C").
    intros p [= <-]. vm_compute. eauto.
  - apply (evaluateProposal_spec engaged_proposee "B").
    intros p [= <-]. vm_compute. eauto.
Defined.

(** ** Runs *)

Section Runs.
Variable evaluate : policy.
Hypothesis evaluate_ok : policy_ok evaluate.

(** Induction over the iterations of a run: a state invariant and a
    property of every event. *)
Lemma iterations_ind (P : State -> Prop) (Q : event -> Prop) :
  (forall s e s', P s -> body_spec evaluate s e s' -> P s' /\ Q e) ->
  forall fuel st tr st',
    P st -> iterations evaluate fuel st = Ok (tr, st') ->
    P st' /\ Forall Q tr.
Proof.
  intros Hstep fuel. induction fuel as [|fuel IH]; intros st tr st' HP H.
  - simpl in H. by simplify_eq.
  - simpl in H. destruct (unmatched st) as [|k rest] eqn:Hum; [by simplify_eq|].
    destruct (loop_body evaluate st) as [[e s1]|] eqn:Hb; simpl in H; [|done].
    destruct (iterations evaluate fuel s1) as [[tr1 s2]|] eqn:Hit;
      simpl in H; [|done].
    simplify_eq. apply loop_body_inv in Hb.
    destruct (Hstep _ _ _ HP Hb) as [HP1 HQ].
    destruct (IH _ _ _ HP1 Hit) as [HP2 HQs]. split; [done|].
    by apply Forall_cons.
Qed.

Lemma run_wf pl ql fuel tr st :
  iterations evaluate fuel (init_state pl ql) = Ok (tr, st) -> wf st.
Proof.
  intros H. eapply (iterations_preserve evaluate wf); [|apply init_state_wf|done].
  intros s e s' Hs Hb. by eapply wf_body.
Qed.

Lemma run_matching pl ql fuel tr st :
  names_nonempty pl = true ->
  iterations evaluate fuel (init_state pl ql) = Ok (tr, st) ->
  wf st /\ matching st.
Proof.
  intros Hne H.
  eapply (iterations_preserve evaluate (fun s => wf s /\ matching s)); [| |done].
  - intros s e s' [Hwf Hm] Hb. split; [by eapply wf_body|].
    eapply matching_step; [done|]. by apply body_engine_step.
  - split; [apply init_state_wf|by apply init_state_matching].
Qed.
End Runs.

Lemma run_stable_inv pl ql fuel tr st :
  names_nonempty pl = true ->
  iterations evaluateProposal fuel (init_state pl ql) = Ok (tr, st) ->
  stable_inv st.
Proof.
  intros Hne H.
  eapply (iterations_preserve evaluateProposal stable_inv); [| |done].
  - intros s e s'. apply stable_inv_body.
  - by apply init_state_stable_inv.
Qed.

Lemma run_complete evaluate pl ql fuel :
  policy_ok evaluate -> policy_total evaluate ->
  ids_consistent pl ql = true ->
  preference_total pl + proposer_count pl <= fuel ->
  exists tr st,
    loop evaluate fuel (init_state pl ql) = Finished tr st /\
    iterations evaluate fuel (init_state pl ql) = Ok (tr, st) /\
    unmatched st = [] /\
    length tr <= preference_total pl + proposer_count pl.
Proof.
  intros Hok Htot Hc Hfuel. rewrite <- (init_state_measure pl ql) in *.
  apply (loop_complete evaluate Hok Htot (dict_keys pl)); [| | |done].
  - apply init_state_wf.
  - by apply init_state_consistent.
  - apply init_state_keys.
Qed.

(** ** The claims about the stable loop *)

(** C1.  On an input whose identifiers are consistent and whose proposer
    names are non-empty, [doMatch] finishes, and its final matching is
    stable: no matched proposer [p] and proposee [r] are such that [p]
    ranks [r] strictly better than its partner while [r] ranks [p] strictly
    better than its own partner (an unpartnered [r] preferring every suitor
    it ranks). *)
Theorem doMatch_stable pl ql fuel :
  ids_consistent pl ql = true -> names_nonempty pl = true ->
  preference_total pl + proposer_count pl <= fuel ->
  exists tr st, doMatch fuel pl ql = Finished tr st /\ stable st.
Proof.
  intros Hc Hne Hfuel.
  destruct (run_complete evaluateProposal pl ql fuel evaluateProposal_ok
              evaluateProposal_total Hc Hfuel) as (tr & st & Hl & Hit & _).
  exists tr, st. split; [done|].
  destruct (run_stable_inv _ _ _ _ _ Hne Hit) as (_ & _ & Hcs).
  by apply courtship_stable.
Qed.

Lemma doMatch_stable_witness :
  exists tr st,
    doMatch 6 scen2_proposers scen2_proposees = Finished tr st /\ stable st.
Proof.
  apply (doMatch_stable scen2_proposers scen2_proposees 6);
    [reflexivity|reflexivity|vm_compute; lia].
Defined.

(** The greedy outcome of the second scenario is not stable: [B] and [X]
    would rather be with each other. *)
Example scen2_greedy_blocking_pair :
  blocking_pair
    (state_after evaluateGreedily 10 scen2_proposers scen2_proposees) "B" "X"
  = true.
Proof. vm_compute. done. Qed.

(** C4 (as amended).  On an input whose identifiers are consistent, either
    loop terminates with an empty queue after at most (sum of the proposers'
    preference-list lengths) + (number of proposers) iterations: every
    iteration either advances one cursor or removes one exhausted proposer
    from the queue. *)
Theorem loop_terminates pl ql fuel :
  ids_consistent pl ql = true ->
  preference_total pl + proposer_count pl <= fuel ->
  (exists tr st,
     doMatch fuel pl ql = Finished tr st /\ unmatched st = [] /\
     length tr <= preference_total pl + proposer_count pl) /\
  (exists tr st,
     doGreedyMatch fuel pl ql = Finished tr st /\ unmatched st = [] /\
     length tr <= preference_total pl + proposer_count pl).
Proof.
  intros Hc Hfuel. split.
  - destruct (run_complete evaluateProposal pl ql fuel evaluateProposal_ok
                evaluateProposal_total Hc Hfuel) as (tr & st & Hl & _ & Hu & Hlen).
    by exists tr, st.
  - destruct (run_complete evaluateGreedily pl ql fuel evaluateGreedily_ok
                evaluateGreedily_total Hc Hfuel) as (tr & st & Hl & _ & Hu & Hlen).
    by exists tr, st.
Qed.

Lemma loop_terminates_witness :
  (exists tr st,
     doMatch 4 scen3_proposers scen3_proposees = Finished tr st /\
     unmatched st = [] /\
     length tr <= preference_total scen3_proposers
                  + proposer_count scen3_proposers) /\
  (exists tr st,
     doGreedyMatch 4 scen3_proposers scen3_proposees = Finished tr st /\
     unmatched st = [] /\
     length tr <= preference_total scen3_proposers
                  + proposer_count scen3_proposers).
Proof.
  apply (loop_terminates scen3_proposers scen3_proposees 4);
    [reflexivity|vm_compute; lia].
Defined.

(** C4 (as stated) fails: with two proposers who both list only [X], the
    preference lists have total length 2, the queue is not empty after 2
    iterations, and the loop needs a third one (to drop the exhausted [B]). *)
Lemma loop_needs_more_than_total :
  ids_consistent scen3_proposers scen3_proposees = true /\
  preference_total scen3_proposers = 2 /\
  doMatch 2 scen3_proposers scen3_proposees = OutOfFuel /\
  unmatched (state_after evaluateProposal 2 scen3_proposers scen3_proposees)
    = ["B"] /\
  trace_of (doMatch 3 scen3_proposers scen3_proposees) =
    Some [Accepts "X" "A" None; Rejects "X" "B"; NoMoreOptions "B"].
Proof. vm_compute. done. Qed.

(** C2 (as amended).  A proposal to an identifier that is not the name of a
    proposee raises [KeyError] at [proposees[n]], under either policy, and
    the run stops there.  What is treated as a rejection is a proposer the
    proposee does not rank.  When every listed identifier is the name of a
    proposee, neither loop raises and both finish with a final pairing. *)
Theorem unknown_identifier_raises :
  (forall (evaluate : policy) st k rest (m : Proposer) n,
     unmatched st = k :: rest -> proposerPref st !! k = Some m ->
     priorities m !! proposalIndex m = Some n ->
     proposees st !! n = None ->
     loop_body evaluate st = Raise (KeyError n) /\
     forall fuel, loop evaluate (S fuel) st = Raised (KeyError n)) /\
  (forall (who : Proposee) suitor,
     ranking who !! suitor = None ->
     evaluateProposal who suitor = Ok (false, who) /\
     evaluateGreedily who suitor = Ok (false, who)) /\
  (forall pl ql fuel,
     ids_consistent pl ql = true ->
     preference_total pl + proposer_count pl <= fuel ->
     (exists tr st, doMatch fuel pl ql = Finished tr st) /\
     (exists tr st, doGreedyMatch fuel pl ql = Finished tr st)).
Proof.
  split_and!.
  - intros evaluate st k rest m n Hu Hm Hn Hq.
    assert (Hb : loop_body evaluate st = Raise (KeyError n)).
    { unfold loop_body, getitem. rewrite Hu, Hm. simpl.
      destruct (nextProposal_cases m) as [[Hlen _]|(g & Hg & ->)].
      - apply lookup_lt_Some in Hn. lia.
      - rewrite Hn in Hg. injection Hg as <-. by rewrite Hq. }
    split; [done|]. intros fuel. unfold loop. simpl. by rewrite Hu, Hb.
  - intros who suitor Hs. unfold evaluateProposal, evaluateGreedily.
    by rewrite Hs.
  - intros pl ql fuel Hc Hfuel. split.
    + destruct (run_complete evaluateProposal pl ql fuel evaluateProposal_ok
                  evaluateProposal_total Hc Hfuel) as (tr & st & Hl & _).
      by exists tr, st.
    + destruct (run_complete evaluateGreedily pl ql fuel evaluateGreedily_ok
                  evaluateGreedily_total Hc Hfuel) as (tr & st & Hl & _).
      by exists tr, st.
Qed.

Lemma unknown_identifier_raises_witness :
  (loop_body evaluateProposal (init_state scen4_proposers scen4_proposees)
   = Raise (KeyError "Z") /\
   forall fuel,
     loop evaluateProposal (S fuel) (init_state scen4_proposers scen4_proposees)
     = Raised (KeyError "Z")) /\
  ((exists tr st, doMatch 6 scen1_proposers scen1_proposees = Finished tr st) /\
   (exists tr st, doGreedyMatch 6 scen1_proposers scen1_proposees
                  = Finished tr st)).
Proof.
  destruct unknown_identifier_raises as (Hraise & _ & Hfin). split.
  - apply (Hraise evaluateProposal _ "A" [] (Proposer_init "A" ["Z"]) "Z");
      reflexivity.
  - apply (Hfin scen1_proposers scen1_proposees 6);
      [reflexivity|vm_compute; lia].
Defined.

(** C2 (as stated) fails: proposer [A] lists [Z], no proposee is called
    [Z], and both loops stop with [KeyError] instead of a final pairing. *)
Lemma unknown_identifier_example :
  ids_consistent scen4_proposers scen4_proposees = false /\
  doMatch 5 scen4_proposers scen4_proposees = Raised (KeyError "Z") /\
  doGreedyMatch 5 scen4_proposers scen4_proposees = Raised (KeyError "Z").
Proof. vm_compute. done. Qed.

(** ** The greedy loop *)

Lemma evaluateGreedily_accepts (q : Proposee) (s : string) q' :
  evaluateGreedily q s = Ok (true, q') ->
  partner q = None /\ exists rs, ranking q !! s = Some rs /\ q' = ranked rs q.
Proof.
  unfold evaluateGreedily. destruct (ranking q !! s) as [rs|]; [|done].
  destruct (partner q) as [p|] eqn:Hp; [done|]. intros [= <-]. eauto.
Qed.

Lemma greedy_body st e st' :
  body_spec evaluateGreedily st e st' -> partners_kept st st' /\ no_dump e.
Proof.
  destruct 1 as [k rest m Hum Hm Hlen|k rest m n who who1 Hum Hm Hn Hwho Hev
                |k rest m n who who1 pp2 um2 d Hum Hm Hn Hwho Hev Hd].
  - split; [|done]. by intros r x.
  - split; [|done]. intros r x. unfold partner_of_proposee. simpl.
    destruct (evaluateGreedily_ok _ _ _ _ Hev) as [[_ ->]|[? _]]; [|done].
    by rewrite (insert_id _ _ _ Hwho).
  - apply evaluateGreedily_accepts in Hev as (Hfree & rs & Hrs & ->). split.
    + intros r x. unfold partner_of_proposee. simpl.
      destruct (decide (r = n)) as [->|Hne].
      * rewrite Hwho. simpl. congruence.
      * by rewrite lookup_insert_ne.
    + inversion Hd; subst; [done|]. simpl in *. congruence.
Qed.

(** C6.  In a greedy run, from any state: no iteration takes the
    displacement branch (no acceptance dumps anybody), and a proposee that
    has a partner at some quiescent point has that same partner at every
    later one. *)
Theorem greedy_never_displaces st fuel tr st' :
  iterations evaluateGreedily fuel st = Ok (tr, st') ->
  Forall no_dump tr /\ partners_kept st st'.
Proof.
  intros H.
  destruct (iterations_ind evaluateGreedily (partners_kept st) no_dump)
    with (fuel := fuel) (st := st) (tr := tr) (st' := st') as [Hk Hd];
    [|by intros r x|done|done].
  intros s e s' Hs Hb. destruct (greedy_body _ _ _ Hb) as [Hk Hd].
  split; [|done]. intros r x Hr. by apply Hk, Hs.
Qed.

Lemma greedy_never_displaces_witness :
  Forall no_dump [Accepts "X" "A" None; Rejects "X" "B"; Accepts "Y" "B" None] /\
  partners_kept
    (state_after evaluateGreedily 1 scen2_proposers scen2_proposees)
    (state_after evaluateGreedily 4 scen2_proposers scen2_proposees).
Proof.
  split.
  - apply (greedy_never_displaces (init_state scen2_proposers scen2_proposees) 3
             _ (state_after evaluateGreedily 3 scen2_proposers scen2_proposees)).
    vm_compute. reflexivity.
  - apply (greedy_never_displaces
             (state_after evaluateGreedily 1 scen2_proposers scen2_proposees) 3
             [Rejects "X" "B"; Accepts "Y" "B" None]).
    vm_compute. reflexivity.
Defined.

(** ** Symmetry of the partner fields *)

Lemma matching_symmetric st : matching st -> symmetric st.
Proof.
  intros [_ _ _ Hmp Hmq] p r. unfold partner_of_proposer, partner_of_proposee.
  split.
  - destruct (proposerPref st !! p) as [m|] eqn:Hm; simpl; [|done].
    intros Hp. destruct (Hmp _ _ _ Hm Hp) as (q0 & -> & Hq0). done.
  - destruct (proposees st !! r) as [q0|] eqn:Hq; simpl; [|done].
    intros Hp. destruct (Hmq _ _ _ Hq Hp) as (m & -> & Hm). done.
Qed.

(** C7.  At every quiescent point of either loop (after any number of
    iterations, the final state included), on an input whose proposer names
    are non-empty: a proposer's [partner] names a proposee exactly when that
    proposee's [partner] names the proposer. *)
Theorem partners_symmetric pl ql fuel tr st :
  names_nonempty pl = true ->
  iterations evaluateProposal fuel (init_state pl ql) = Ok (tr, st) \/
  iterations evaluateGreedily fuel (init_state pl ql) = Ok (tr, st) ->
  symmetric st.
Proof.
  intros Hne [H|H]; apply matching_symmetric.
  - by destruct (run_matching _ evaluateProposal_ok _ _ _ _ _ Hne H).
  - by destruct (run_matching _ evaluateGreedily_ok _ _ _ _ _ Hne H).
Qed.

Lemma partners_symmetric_witness :
  symmetric (state_after evaluateProposal 2 scen2_proposers scen2_proposees).
Proof.
  apply (partners_symmetric scen2_proposers scen2_proposees 2
           [Accepts "X" "A" None; Accepts "X" "B" (Some "A")]);
    [reflexivity|left; vm_compute; reflexivity].
Defined.

(** ** Ranks recorded at an acceptance *)

Lemma proposals_by_app k t1 t2 :
  proposals_by k (t1 ++ t2) = proposals_by k t1 + proposals_by k t2.
Proof. induction t1 as [|e t1 IH]; simpl; [done|]. rewrite IH. lia. Qed.

Section Counting.
Variable evaluate : policy.
Hypothesis evaluate_ok : policy_ok evaluate.

Lemma iterations_trace (P : list event -> State -> Prop) :
  (forall t s e s', P t s -> body_spec evaluate s e s' -> P (t ++ [e]) s') ->
  forall fuel st t tr st',
    P t st -> iterations evaluate fuel st = Ok (tr, st') -> P (t ++ tr) st'.
Proof.
  intros Hstep fuel. induction fuel as [|fuel IH]; intros st t tr st' HP H.
  - simpl in H. simplify_eq. by rewrite app_nil_r.
  - simpl in H. destruct (unmatched st) as [|k rest] eqn:Hum.
    { simplify_eq. by rewrite app_nil_r. }
    destruct (loop_body evaluate st) as [[e s1]|] eqn:Hb; simpl in H; [|done].
    destruct (iterations evaluate fuel s1) as [[tr1 s2]|] eqn:Hit;
      simpl in H; [|done].
    simplify_eq. apply loop_body_inv in Hb.
    pose proof (IH _ _ _ _ (Hstep _ _ _ _ HP Hb) Hit) as HP2.
    by rewrite <- app_assoc in HP2.
Qed.

(** The cursor moves by one exactly for the proposer of the iteration. *)
Lemma body_index st e st' j (m' : Proposer) :
  wf st -> body_spec evaluate st e st' -> proposerPref st' !! j = Some m' ->
  exists m, proposerPref st !! j = Some m /\
    proposalIndex m' = proposalIndex m + (if proposes j e then 1 else 0).
Proof.
  intros [Hpn _ _ _ _] Hb.
  destruct Hb as [k rest m Hum Hm Hlen|k rest m n who who1 Hum Hm Hn Hwho Hev
                 |k rest m n who who1 pp2 um2 d Hum Hm Hn Hwho Hev Hd];
    simpl; intros Hj.
  - exists m'. split; [|lia].
    destruct (decide (k = j)) as [->|Hne].
    + rewrite lookup_insert_eq in Hj. by simplify_eq.
    + by rewrite lookup_insert_ne in Hj.
  - rewrite (Hpn _ _ Hm). destruct (decide (k = j)) as [->|Hne].
    + rewrite lookup_insert_eq in Hj. injection Hj as <-.
      exists m. rewrite bool_decide_eq_true_2 by done. done.
    + rewrite lookup_insert_ne in Hj by done. exists m'.
      rewrite bool_decide_eq_false_2 by done. split; [done|lia].
  - rewrite (Hpn _ _ Hm). destruct (decide (k = j)) as [->|Hne].
    + rewrite lookup_insert_eq in Hj. injection Hj as <-.
      destruct (dump_head _ _ _ _ _ _ _ _ Hd) as (mk & -> & Hcase).
      exists m. rewrite bool_decide_eq_true_2 by done. split; [done|].
      by destruct Hcase as [->| ->].
    + rewrite lookup_insert_ne in Hj by done.
      destruct (dump_lookup _ _ _ _ _ _ _ _ Hd Hj) as (m0 & Hm0 & Hc0).
      rewrite lookup_insert_ne in Hm0 by done. exists m0.
      rewrite bool_decide_eq_false_2 by done. split; [done|].
      destruct Hc0 as [->| ->]; simpl; lia.
Qed.

Lemma run_cursors_count pl ql fuel tr st :
  iterations evaluate fuel (init_state pl ql) = Ok (tr, st) ->
  cursors_count tr st.
Proof.
  intros H.
  apply (iterations_trace cursors_count) with (t := []) in H; [done| |].
  - intros t s e s' [Hwf Hcnt] Hb. split; [by eapply wf_body|].
    intros k m' Hk.
    destruct (body_index _ _ _ _ _ Hwf Hb Hk) as (m & Hm & ->).
    rewrite proposals_by_app, (Hcnt _ _ Hm). simpl. lia.
  - split; [apply init_state_wf|]. intros k m Hk. simpl in Hk.
    by apply build_dict_lookup in Hk as (prio & _ & ->).
Qed.

Lemma body_accepts st w p d st' :
  wf st -> body_spec evaluate st (Accepts w p d) st' ->
  exists m q r,
    proposerPref st' !! p = Some m /\ partner m = Some w /\
    rank m = Some (proposalIndex m) /\
    proposees st' !! w = Some q /\ partner q = Some p /\
    ranking q !! p = Some r /\ priorities q !! r = Some p /\
    rank q = Some (r + 1).
Proof.
  intros [Hpn Hqn _ _ Hrk] Hb.
  inversion Hb as [| |k rest m n q0 who1 pp2 um2 d0 Hum Hm Hn Hwho Hev Hd];
    subst.
  destruct (evaluate_ok _ _ _ _ Hev)
    as [[? _]|[_ (rs & Hrs & -> & Hacc)]]; [done|].
  simpl. rewrite (Hpn _ _ Hm), (Hqn _ _ Hwho). rewrite (Hpn _ _ Hm) in Hrs.
  exists (matched n (default (advance m) (pp2 !! k))),
    (engaged k (ranked rs q0)), rs.
  rewrite !lookup_insert_eq. simpl.
  split_and!; try done. by eapply Hrk.
Qed.
End Counting.

(** C8.  When an iteration of either loop accepts a proposal, then in the
    state after it the proposer's rank equals its cursor, which is the
    number of proposals it has made so far, the accepted one included, and
    the proposee's rank is one more than the 0-based position of the
    accepted suitor in the proposee's preference list. *)
Theorem acceptance_ranks evaluate pl ql fuel tr st w p d st' :
  evaluate = evaluateProposal \/ evaluate = evaluateGreedily ->
  iterations evaluate fuel (init_state pl ql) = Ok (tr, st) ->
  loop_body evaluate st = Ok (Accepts w p d, st') ->
  exists (m : Proposer) (q : Proposee) r,
    proposerPref st' !! p = Some m /\ proposees st' !! w = Some q /\
    partner m = Some w /\ partner q = Some p /\
    rank m = Some (proposalIndex m) /\
    proposalIndex m = proposals_by p (tr ++ [Accepts w p d]) /\
    priorities q !! r = Some p /\ ranking q !! p = Some r /\
    rank q = Some (r + 1).
Proof.
  intros Hev Hit Hb.
  assert (Hok : policy_ok evaluate).
  { destruct Hev as [->| ->];
      [apply evaluateProposal_ok|apply evaluateGreedily_ok]. }
  destruct (run_cursors_count _ Hok _ _ _ _ _ Hit) as [Hwf Hcnt].
  apply loop_body_inv in Hb.
  destruct (body_accepts _ Hok _ _ _ _ _ Hwf Hb)
    as (m & q & r & Hm & Hpm & Hrm & Hq & Hpq & Hrq & Hprio & Hrank).
  exists m, q, r. split_and!; try done.
  destruct (body_index _ _ _ _ _ _ Hwf Hb Hm) as (m0 & Hm0 & ->).
  rewrite proposals_by_app, (Hcnt _ _ Hm0). simpl. lia.
Qed.

Lemma acceptance_ranks_witness :
  exists (m : Proposer) (q : Proposee) r,
    proposerPref (state_after evaluateProposal 3 scen1_proposers scen1_proposees)
      !! "B" = Some m /\
    proposees (state_after evaluateProposal 3 scen1_proposers scen1_proposees)
      !! "Y" = Some q /\
    partner m = Some "Y" /\ partner q = Some "B" /\
    rank m = Some (proposalIndex m) /\
    proposalIndex m =
      proposals_by "B"
        ([Accepts "X" "A" None; Rejects "X" "B"] ++ [Accepts "Y" "B" None]) /\
    priorities q !! r = Some "B" /\ ranking q !! "B" = Some r /\
    rank q = Some (r + 1).
Proof.
  apply (acceptance_ranks evaluateProposal scen1_proposers scen1_proposees 2
           [Accepts "X" "A" None; Rejects "X" "B"]
           (state_after evaluateProposal 2 scen1_proposers scen1_proposees)
           "Y" "B" None);
    [by left|vm_compute; reflexivity|vm_compute; reflexivity].
Defined.

(** ** Displacement *)

(** C9 (as amended).  When an iteration of the stable loop dumps a proposer
    (on an input whose proposer names are non-empty), that proposer was the
    partner of the accepting proposee, and in the state after the iteration
    its [partner] is [None] and its [rank] is the integer 0, both set in
    that same iteration; it is back in the queue and its cursor is where it
    was. *)
Theorem dump_clears_partner pl ql fuel tr st w p old st' :
  names_nonempty pl = true ->
  iterations evaluateProposal fuel (init_state pl ql) = Ok (tr, st) ->
  loop_body evaluateProposal st = Ok (Accepts w p (Some old), st') ->
  exists (m0 m1 : Proposer),
    proposerPref st !! old = Some m0 /\ partner m0 = Some w /\
    proposerPref st' !! old = Some m1 /\
    partner m1 = None /\ rank m1 = Some 0 /\
    proposalIndex m1 = proposalIndex m0 /\ old ∈ unmatched st'.
Proof.
  intros Hne Hit Hb.
  destruct (run_matching _ evaluateProposal_ok _ _ _ _ _ Hne Hit) as [Hwf Hmt].
  apply loop_body_inv in Hb.
  apply (body_engine_step _ evaluateProposal_ok _ _ _ Hwf Hmt) in Hb.
  inversion Hb as [| | |k rest m n q0 rs old0 mOld ro Hu Hm Hp Hn Hwho Hev Hrs
                         Hold Hok Hmo Hpo Hro Hlt]; subst.
  exists mOld, (dumped mOld). simpl.
  rewrite lookup_insert_ne, lookup_insert_eq by done.
  split_and!; try done. apply elem_of_app. right. by apply list_elem_of_singleton.
Qed.

Lemma dump_clears_partner_witness :
  exists (m0 m1 : Proposer),
    proposerPref (state_after evaluateProposal 1 scen2_proposers scen2_proposees)
      !! "A" = Some m0 /\
    partner m0 = Some "X" /\
    proposerPref (state_after evaluateProposal 2 scen2_proposers scen2_proposees)
      !! "A" = Some m1 /\
    partner m1 = None /\ rank m1 = Some 0 /\
    proposalIndex m1 = proposalIndex m0 /\
    "A" ∈ unmatched
            (state_after evaluateProposal 2 scen2_proposers scen2_proposees).
Proof.
  apply (dump_clears_partner scen2_proposers scen2_proposees 1
           [Accepts "X" "A" None] _ "X" "B" "A");
    [reflexivity|vm_compute; reflexivity|vm_compute; reflexivity].
Defined.

(** C9 (as stated) fails: after [A] is dumped in the second scenario its
    rank is the integer 0, whereas a proposer that was never matched has
    rank [None]. *)
Lemma dumped_rank_is_zero :
  trace_of (doMatch 10 scen2_proposers scen2_proposees) =
    Some [Accepts "X" "A" None; Accepts "X" "B" (Some "A"); NoMoreOptions "A"] /\
  proposer_fields
    (state_after evaluateProposal 10 scen2_proposers scen2_proposees) "A"
  = Some (None, Some 0) /\
  proposer_fields (init_state scen2_proposers scen2_proposees) "A"
  = Some (None, None).
Proof. vm_compute. done. Qed.

(** ** Proposees only trade up *)

(** C10.  When an iteration of the stable loop changes the partner of a
    proposee that already had one, the new partner stands at a strictly
    lower index of the proposee's preference list than the old one, and the
    proposee's rank, which is that index plus one before and after, strictly
    decreases. *)
Theorem proposee_trades_up pl ql fuel tr st e st' r (q0 q1 : Proposee) a b :
  iterations evaluateProposal fuel (init_state pl ql) = Ok (tr, st) ->
  loop_body evaluateProposal st = Ok (e, st') ->
  proposees st !! r = Some q0 -> proposees st' !! r = Some q1 ->
  partner q0 = Some a -> partner q1 = Some b -> a <> b ->
  exists ia ib,
    priorities q1 = priorities q0 /\
    priorities q0 !! ia = Some a /\ priorities q0 !! ib = Some b /\
    ib < ia /\ rank q0 = Some (ia + 1) /\ rank q1 = Some (ib + 1).
Proof.
  intros Hit Hb Hq0 Hq1 Ha Hbp Hab.
  pose proof (run_wf _ evaluateProposal_ok _ _ _ _ _ Hit) as [Hpn Hqn _ Hpart Hrk].
  apply loop_body_inv in Hb.
  destruct (body_proposee_change _ evaluateProposal_ok _ _ _ _ _ Hb Hq1)
    as (q & Hq & [->|(k & rest & m & rs & d & Hu & Hm & Hn & Hrs & Hacc & -> & _)]);
    rewrite Hq0 in Hq; injection Hq as <-.
  - congruence.
  - simpl in Hbp. injection Hbp as <-.
    destruct Hacc as [Hnone|(p & rp & Hp & Hrp & Hlt)]; [congruence|].
    rewrite Ha in Hp. injection Hp as <-.
    destruct (Hpart _ _ _ Hq0 Ha) as [_ (ra & Hra & Hrank)].
    rewrite Hrp in Hra. injection Hra as <-.
    exists rp, rs. simpl. split_and!; try done; by eapply Hrk.
Qed.

Lemma proposee_trades_up_witness :
  exists ia ib,
    priorities
      (proposee_at
         (state_after evaluateProposal 2 scen2_proposers scen2_proposees) "X")
    = priorities
        (proposee_at
           (state_after evaluateProposal 1 scen2_proposers scen2_proposees) "X")
    /\
    priorities
      (proposee_at
         (state_after evaluateProposal 1 scen2_proposers scen2_proposees) "X")
      !! ia = Some "A" /\
    priorities
      (proposee_at
         (state_after evaluateProposal 1 scen2_proposers scen2_proposees) "X")
      !! ib = Some "B" /\
    ib < ia /\
    rank
      (proposee_at
         (state_after evaluateProposal 1 scen2_proposers scen2_proposees) "X")
    = Some (ia + 1) /\
    rank
      (proposee_at
         (state_after evaluateProposal 2 scen2_proposers scen2_proposees) "X")
    = Some (ib + 1).
Proof.
  apply (proposee_trades_up scen2_proposers scen2_proposees 1
           [Accepts "X" "A" None]
           (state_after evaluateProposal 1 scen2_proposers scen2_proposees)
           (Accepts "X" "B" (Some "A"))
           (state_after evaluateProposal 2 scen2_proposers scen2_proposees)
           "X");
    [vm_compute; reflexivity|vm_compute; reflexivity|vm_compute; reflexivity
    |vm_compute; reflexivity|reflexivity|reflexivity|done].
Defined.

(** * The rest of the program: properties *)

(** ** [parseFile] *)

Example parseFile_example :
  parseFile py_isspace example_lines =
  Ok [("bob", ["alice"; "carol"]); ("david", ["carol"; "alice"]);
      ("eve", [EmptyString])].
Proof. vm_compute. reflexivity. Qed.

Lemma split_on_cons sep s : exists p r, split_on sep s = p :: r.
Proof.
  induction s as [|c s (p & r & IH)]; simpl; [eauto|].
  destruct (Ascii.eqb c sep); [eauto|]. rewrite IH. eauto.
Qed.

Lemma split_on_no_sep sep s p :
  p ∈ split_on sep s -> has_char sep p = false.
Proof.
  revert p. induction s as [|c s IH]; simpl; intros p Hp.
  - apply list_elem_of_singleton in Hp as ->. done.
  - destruct (Ascii.eqb c sep) eqn:Hc.
    + apply elem_of_cons in Hp as [->|Hp]; [done|]. by apply IH.
    + destruct (split_on_cons sep s) as (p0 & r & Hs). rewrite Hs in *.
      apply elem_of_cons in Hp as [->|Hp].
      * simpl. rewrite Hc. simpl. apply IH, elem_of_cons. by left.
      * apply IH, elem_of_cons. by right.
Qed.

Lemma split_on_absent sep s :
  has_char sep s = false -> split_on sep s = [s].
Proof.
  induction s as [|c s IH]; simpl; [done|].
  intros H. apply orb_false_iff in H as [Hc Hs]. rewrite Hc, (IH Hs). done.
Qed.

Section StripFacts.
Variable isspace : Ascii.ascii -> bool.

Lemma lstrip_has_char c s :
  has_char c (lstrip isspace s) = true -> has_char c s = true.
Proof.
  induction s as [|c' s IH]; simpl; [done|].
  destruct (isspace c'); [|done]. intros H. rewrite (IH H). apply orb_true_r.
Qed.

Lemma rstrip_has_char c s :
  has_char c (rstrip isspace s) = true -> has_char c s = true.
Proof.
  induction s as [|c' s IH]; simpl; [done|].
  destruct (rstrip isspace s) as [|c0 r] eqn:Hr.
  - destruct (isspace c'); simpl; [done|]. rewrite orb_false_r. intros ->. done.
  - simpl. intros H. apply orb_true_iff in H as [->|H]; [done|].
    rewrite IH; [apply orb_true_r|done].
Qed.

Lemma strip_has_char c s :
  has_char c s = false -> has_char c (strip isspace s) = false.
Proof.
  intros H. unfold strip.
  destruct (has_char c (lstrip isspace (rstrip isspace s))) eqn:Hs; [|done].
  apply lstrip_has_char, rstrip_has_char in Hs. congruence.
Qed.

Lemma lstrip_idemp s : lstrip isspace (lstrip isspace s) = lstrip isspace s.
Proof.
  induction s as [|c s IH]; simpl; [done|].
  destruct (isspace c) eqn:Hc; [done|]. simpl. by rewrite Hc.
Qed.

Lemma rstrip_idemp s : rstrip isspace (rstrip isspace s) = rstrip isspace s.
Proof.
  induction s as [|c s IH]; simpl; [done|].
  destruct (rstrip isspace s) as [|c0 r] eqn:Hr.
  - destruct (isspace c) eqn:Hc; simpl; [done|]. by rewrite Hc.
  - simpl in *. rewrite IH. done.
Qed.

Lemma strip_comm s :
  rstrip isspace (lstrip isspace s) = lstrip isspace (rstrip isspace s).
Proof.
  induction s as [|c s IH]; simpl; [done|].
  destruct (isspace c) eqn:Hc.
  - rewrite IH. destruct (rstrip isspace s) as [|c0 r] eqn:Hr; simpl.
    + done.
    + by rewrite Hc.
  - simpl. destruct (rstrip isspace s) as [|c0 r] eqn:Hr; simpl; by rewrite Hc.
Qed.

Lemma strip_idemp s : strip isspace (strip isspace s) = strip isspace s.
Proof.
  unfold strip. rewrite (strip_comm (rstrip isspace s)).
  by rewrite lstrip_idemp, rstrip_idemp.
Qed.

Lemma parseLine_Some line name prios :
  parseLine isspace line = Ok (Some (name, prios)) ->
  name <> EmptyString /\ strip isspace name = name /\
  has_char colon name = false /\ prios <> [] /\
  forall p, p ∈ prios -> strip isspace p = p /\ has_char comma p = false.
Proof.
  unfold parseLine.
  destruct (split_on colon line !! 0) as [piece0|] eqn:H0; [|done].
  destruct (String.eqb (strip isspace piece0) EmptyString) eqn:Hn; simpl; [done|].
  destruct (split_on colon line !! 1) as [piece1|] eqn:H1; [|done].
  intros [= <- <-]. split_and!.
  - by apply String.eqb_neq.
  - apply strip_idemp.
  - apply strip_has_char. eapply split_on_no_sep, list_elem_of_lookup_2, H0.
  - destruct (split_on_cons comma (strip isspace piece1)) as (p & r & ->). done.
  - intros p Hp. apply list_elem_of_fmap in Hp as (p0 & -> & Hp0). split.
    + apply strip_idemp.
    + apply strip_has_char. by eapply split_on_no_sep.
Qed.

Lemma parseLine_raises line e :
  parseLine isspace line = Raise e <->
  e = IndexError /\ has_char colon line = false /\
  strip isspace line <> EmptyString.
Proof.
  unfold parseLine. destruct (has_char colon line) eqn:Hc.
  - destruct (split_on_cons colon line) as (p0 & r & Hs). rewrite Hs. simpl.
    destruct (String.eqb (strip isspace p0) EmptyString); simpl.
    { split; [done|]. by intros (_ & ? & _). }
    destruct r as [|p1 r]; simpl.
    + exfalso. assert (Hl : line = p0).
      { clear -Hs. revert p0 Hs. induction line as [|c s IH]; simpl; intros p0 Hs.
        - congruence.
        - destruct (split_on_cons colon s) as (p & r & Hp). rewrite Hp in Hs.
          destruct (Ascii.eqb c colon); [done|].
          injection Hs as <- ->. f_equal. by apply IH. }
      subst. assert (has_char colon p0 = false); [|congruence].
      eapply split_on_no_sep. rewrite Hs. apply elem_of_cons. by left.
    + split; [done|]. by intros (_ & ? & _).
  - rewrite (split_on_absent _ _ Hc). simpl.
    destruct (String.eqb (strip isspace line) EmptyString) eqn:Hn; simpl.
    + apply String.eqb_eq in Hn. split; [done|]. by intros (_ & _ & ?).
    + apply String.eqb_neq in Hn. split; [by intros [= <-]|by intros [-> _]].
Qed.
End StripFacts.

Lemma parseFile_Ok isspace lines people :
  parseFile isspace lines = Ok people ->
  names_nonempty people = true /\ length people <= length lines /\
  forall name prios, (name, prios) ∈ people ->
    name <> EmptyString /\ strip isspace name = name /\
    has_char colon name = false /\ prios <> [] /\
    forall p, p ∈ prios -> strip isspace p = p /\ has_char comma p = false.
Proof.
  revert people. induction lines as [|line lines IH]; simpl; intros people H.
  - injection H as <-. split_and!; [done|done|]. intros n ps Hin.
    by apply elem_of_nil in Hin.
  - destruct (parseLine isspace line) as [entry|] eqn:Hl; simpl in H; [|done].
    destruct (parseFile isspace lines) as [rest|] eqn:Hr; simpl in H; [|done].
    destruct (IH rest eq_refl) as (Hne & Hlen & Hall).
    injection H as <-. destruct entry as [[name prios]|].
    + pose proof (parseLine_Some _ _ _ _ Hl) as Hp. split_and!.
      * simpl. rewrite Hne, andb_true_r. apply negb_true_iff, String.eqb_neq.
        by destruct Hp.
      * simpl. lia.
      * intros n ps Hin. apply elem_of_cons in Hin as [[= -> ->]|Hin]; eauto.
    + split_and!; [done|lia|done].
Qed.

(** X1.  Every entry [parseFile] returns has a non-empty name without
    surrounding whitespace and without a colon, and a non-empty list of
    identifiers, each without surrounding whitespace and without a comma;
    there are at most as many entries as lines. *)
Theorem parseFile_entries isspace lines people :
  parseFile isspace lines = Ok people ->
  names_nonempty people = true /\ length people <= length lines /\
  forall name prios, (name, prios) ∈ people ->
    name <> EmptyString /\ strip isspace name = name /\
    has_char colon name = false /\ prios <> [] /\
    forall p, p ∈ prios -> strip isspace p = p /\ has_char comma p = false.
Proof. apply parseFile_Ok. Qed.

Lemma parseFile_entries_witness :
  names_nonempty
    [("A", ["X"]); ("B", ["X"; "Y"])] = true /\
  length [("A", ["X"]); ("B", ["X"; "Y"])] <= length employers_lines /\
  forall name prios, (name, prios) ∈ [("A", ["X"]); ("B", ["X"; "Y"])] ->
    name <> EmptyString /\ strip py_isspace name = name /\
    has_char colon name = false /\ prios <> [] /\
    forall p, p ∈ prios -> strip py_isspace p = p /\ has_char comma p = false.
Proof.
  apply (parseFile_entries py_isspace employers_lines). vm_compute. reflexivity.
Defined.

Lemma parseFile_Raise isspace lines e :
  parseFile isspace lines = Raise e <->
  e = IndexError /\
  exists line, line ∈ lines /\ has_char colon line = false /\
               strip isspace line <> EmptyString.
Proof.
  induction lines as [|line lines IH]; simpl.
  - split; [done|]. intros (_ & l & Hl & _). by apply elem_of_nil in Hl.
  - destruct (parseLine isspace line) as [entry|e0] eqn:Hl; simpl.
    + destruct (parseFile isspace lines) as [rest|e1] eqn:Hr; simpl.
      * split; [done|]. intros (-> & l & Hin & Hc & Hs).
        apply elem_of_cons in Hin as [->|Hin].
        -- assert (parseLine isspace line = Raise IndexError) as Hx;
             [by apply parseLine_raises|congruence].
        -- assert (Ok rest = Raise IndexError) as Hx; [|done].
           apply IH. eauto.
      * split.
        -- intros [= <-]. destruct (proj1 IH eq_refl) as (-> & l & Hin & Hc & Hs).
           split; [done|]. exists l. split; [|done]. apply elem_of_cons. by right.
        -- intros (-> & l & Hin & Hc & Hs).
           apply elem_of_cons in Hin as [->|Hin].
           ++ assert (parseLine isspace line = Raise IndexError) as Hx;
                [by apply parseLine_raises|congruence].
           ++ apply IH. eauto.
    + apply parseLine_raises in Hl as (-> & Hc & Hs). split.
      * intros [= <-]. split; [done|]. exists line. split; [|done].
        apply elem_of_cons. by left.
      * by intros [-> _].
Qed.

(** X2.  [parseFile] raises exactly when some line has no colon and is not
    blank, and what it raises is then [IndexError] (from [pieces[1]]);
    blank lines are skipped. *)
Theorem parseFile_raises isspace lines e :
  parseFile isspace lines = Raise e <->
  e = IndexError /\
  exists line, line ∈ lines /\ has_char colon line = false /\
               strip isspace line <> EmptyString.
Proof. apply parseFile_Raise. Qed.

(** ** Proposals go down the list *)

Lemma targets_of_app k t1 t2 :
  targets_of k (t1 ++ t2) = targets_of k t1 ++ targets_of k t2.
Proof. apply omap_app. Qed.

Section Targets.
Variable evaluate : policy.
Hypothesis evaluate_ok : policy_ok evaluate.

Lemma body_target st e st' j (m' : Proposer) :
  wf st -> body_spec evaluate st e st' -> proposerPref st' !! j = Some m' ->
  exists m, proposerPref st !! j = Some m /\
    priorities m' = priorities m /\
    match target_of j e with
    | Some n => priorities m !! proposalIndex m = Some n /\
                proposalIndex m' = proposalIndex m + 1
    | None => proposalIndex m' = proposalIndex m
    end.
Proof.
  intros [Hpn Hqn _ _ _] Hb.
  destruct Hb as [k rest m Hum Hm Hlen|k rest m n who who1 Hum Hm Hn Hwho Hev
                 |k rest m n who who1 pp2 um2 d Hum Hm Hn Hwho Hev Hd];
    simpl; intros Hj.
  - exists m'. split; [|done].
    destruct (decide (k = j)) as [->|Hne].
    + rewrite lookup_insert_eq in Hj. by simplify_eq.
    + by rewrite lookup_insert_ne in Hj.
  - destruct (evaluate_ok _ _ _ _ Hev) as [[_ ->]|[? _]]; [|done].
    rewrite (Hpn _ _ Hm), (Hqn _ _ Hwho).
    destruct (decide (k = j)) as [->|Hne].
    + rewrite lookup_insert_eq in Hj. injection Hj as <-.
      exists m. rewrite bool_decide_eq_true_2 by done. done.
    + rewrite lookup_insert_ne in Hj by done. exists m'.
      rewrite bool_decide_eq_false_2 by done. done.
  - destruct (evaluate_ok _ _ _ _ Hev)
      as [[? _]|[_ (rs & Hrs & -> & Hacc)]]; [done|].
    simpl. rewrite (Hpn _ _ Hm), (Hqn _ _ Hwho).
    destruct (decide (k = j)) as [->|Hne].
    + rewrite lookup_insert_eq in Hj. injection Hj as <-.
      destruct (dump_head _ _ _ _ _ _ _ _ Hd) as (mk & -> & Hcase).
      exists m. rewrite bool_decide_eq_true_2 by done.
      by destruct Hcase as [->| ->].
    + rewrite lookup_insert_ne in Hj by done.
      destruct (dump_lookup _ _ _ _ _ _ _ _ Hd Hj) as (m0 & Hm0 & Hc0).
      rewrite lookup_insert_ne in Hm0 by done. exists m0.
      rewrite bool_decide_eq_false_2 by done.
      by destruct Hc0 as [->| ->].
Qed.

Lemma run_in_order pl ql fuel tr st :
  iterations evaluate fuel (init_state pl ql) = Ok (tr, st) ->
  in_order pl tr st.
Proof.
  intros H.
  apply (iterations_trace evaluate (in_order pl)) with (t := []) in H; [done| |].
  - intros t s e s' [Hwf Hall] Hb. split; [by eapply wf_body|].
    intros k m' Hk.
    destruct (body_target _ _ _ _ _ Hwf Hb Hk) as (m & Hm & Hprio & Htgt).
    destruct (Hall _ _ Hm) as (Hinit & Hle & Htr). rewrite Hprio.
    split; [done|]. rewrite targets_of_app. unfold targets_of at 2. simpl.
    destruct (target_of k e) as [n|].
    + destruct Htgt as [Hn ->]. split.
      * apply lookup_lt_Some in Hn. lia.
      * rewrite Htr. replace (proposalIndex m + 1) with (S (proposalIndex m)) by lia.
        by rewrite (take_S_r _ _ _ Hn).
    + rewrite Htgt, app_nil_r. done.
  - split; [apply init_state_wf|]. intros k m Hk. simpl in Hk.
    pose proof Hk as Hk'.
    apply build_dict_lookup in Hk as (prio & _ & ->). simpl.
    split_and!; [done|lia|done].
Qed.
End Targets.

(** X3.  In a run of either loop, the proposees a proposer has proposed to
    so far are exactly the first [proposalIndex] entries of its preference
    list, in that order: it goes down its list and never proposes twice from
    the same position.  The cursor never passes the end of the list, and the
    list is still the one the proposer was built with. *)
Theorem proposals_in_order evaluate pl ql fuel tr st k (m : Proposer) :
  evaluate = evaluateProposal \/ evaluate = evaluateGreedily ->
  iterations evaluate fuel (init_state pl ql) = Ok (tr, st) ->
  proposerPref st !! k = Some m ->
  build_dict Proposer_init pl !! k = Some (Proposer_init k (priorities m)) /\
  proposalIndex m <= length (priorities m) /\
  targets_of k tr = take (proposalIndex m) (priorities m).
Proof.
  intros Hev Hit Hk.
  assert (Hok : policy_ok evaluate).
  { destruct Hev as [->| ->];
      [apply evaluateProposal_ok|apply evaluateGreedily_ok]. }
  destruct (run_in_order _ Hok _ _ _ _ _ Hit) as [_ Hall]. eauto.
Qed.

Lemma proposals_in_order_witness :
  let m := proposer_at
             (state_after evaluateProposal 3 scen1_proposers scen1_proposees)
             "B" in
  build_dict Proposer_init scen1_proposers !! "B"
    = Some (Proposer_init "B" (priorities m)) /\
  proposalIndex m <= length (priorities m) /\
  targets_of "B" [Accepts "X" "A" None; Rejects "X" "B"; Accepts "Y" "B" None]
    = take (proposalIndex m) (priorities m).
Proof.
  apply (proposals_in_order evaluateProposal scen1_proposers scen1_proposees 3
           _ (state_after evaluateProposal 3 scen1_proposers scen1_proposees));
    [by left|vm_compute; reflexivity|vm_compute; reflexivity].
Defined.

(** ** Where a run ends *)

Section Settled.
Variable evaluate : policy.
Hypothesis evaluate_ok : policy_ok evaluate.

Lemma settled_body st e st' :
  wf st -> settled st -> body_spec evaluate st e st' -> settled st'.
Proof.
  intros [Hpn _ _ _ _] Hs Hb.
  destruct Hb as [k rest m Hum Hm Hlen|k rest m n who who1 Hum Hm Hn Hwho Hev
                 |k rest m n who who1 pp2 um2 d Hum Hm Hn Hwho Hev Hd];
    intros j mj; simpl; intros Hj.
  - destruct (decide (k = j)) as [->|Hne].
    + rewrite lookup_insert_eq in Hj. injection Hj as <-. by right; right.
    + rewrite lookup_insert_ne in Hj by done.
      destruct (Hs _ _ Hj) as [Hin|Hr]; [|by right].
      left. rewrite Hum in Hin. apply elem_of_cons in Hin as [->|Hin]; done.
  - destruct (decide (k = j)) as [->|Hne].
    + left. apply elem_of_cons. by left.
    + rewrite lookup_insert_ne in Hj by done.
      destruct (Hs _ _ Hj) as [Hin|Hr]; [|by right]. left. by rewrite <- Hum.
  - destruct (decide (k = j)) as [->|Hne].
    + rewrite lookup_insert_eq in Hj. injection Hj as <-. right; left.
      simpl. eauto.
    + rewrite lookup_insert_ne in Hj by done.
      inversion Hd as [Ht|old mOld Hold Hno Hlk]; subst; simpl.
      * rewrite lookup_insert_ne in Hj by done.
        destruct (Hs _ _ Hj) as [Hin|Hr]; [|by right].
        left. rewrite Hum in Hin. apply elem_of_cons in Hin as [->|Hin]; done.
      * destruct (decide (old = j)) as [->|Hoj].
        -- left. apply elem_of_app. right. apply list_elem_of_singleton.
           rewrite lookup_insert_ne in Hlk by done. by apply Hpn in Hlk.
        -- rewrite !lookup_insert_ne in Hj by done.
           destruct (Hs _ _ Hj) as [Hin|Hr]; [|by right].
           left. rewrite Hum in Hin. apply elem_of_app. left.
           apply elem_of_cons in Hin as [->|Hin]; done.
Qed.

Lemma run_settled pl ql fuel tr st :
  iterations evaluate fuel (init_state pl ql) = Ok (tr, st) -> settled st.
Proof.
  intros H.
  apply (iterations_preserve evaluate (fun s => wf s /\ settled s)) in H;
    [by destruct H| |].
  - intros s e s' [Hwf Hs] Hb. split; [by eapply wf_body|by eapply settled_body].
  - split; [apply init_state_wf|]. intros k m Hk. left. simpl in *.
    apply build_dict_lookup in Hk as (prio & Hin & _).
    apply dict_keys_elem. by eapply pair_elem_fst.
Qed.
End Settled.

Lemma loop_Finished evaluate fuel st tr st' :
  loop evaluate fuel st = Finished tr st' ->
  iterations evaluate fuel st = Ok (tr, st') /\ unmatched st' = [].
Proof.
  unfold loop. destruct (iterations evaluate fuel st) as [[t s]|]; [|done].
  destruct (unmatched s) eqn:Hu; [|done]. by intros [= <- <-].
Qed.

(** X4.  When either loop finishes, every proposer either has a partner or
    has proposed to everybody on its list: an unmatched proposer's cursor
    is at the end of its list and its proposals were, in order, its whole
    list. *)
Theorem finished_matched_or_exhausted evaluate pl ql fuel tr st k (m : Proposer) :
  evaluate = evaluateProposal \/ evaluate = evaluateGreedily ->
  loop evaluate fuel (init_state pl ql) = Finished tr st ->
  proposerPref st !! k = Some m ->
  is_Some (partner m) \/
  (proposalIndex m = length (priorities m) /\
   targets_of k tr = priorities m).
Proof.
  intros Hev Hl Hk. apply loop_Finished in Hl as [Hit Hdone].
  assert (Hok : policy_ok evaluate).
  { destruct Hev as [->| ->];
      [apply evaluateProposal_ok|apply evaluateGreedily_ok]. }
  destruct (run_in_order _ Hok _ _ _ _ _ Hit) as [_ Hall].
  destruct (Hall _ _ Hk) as (_ & Hle & Htr).
  destruct (run_settled _ Hok _ _ _ _ _ Hit _ _ Hk) as [Hin|[Hp|Hex]].
  - rewrite Hdone in Hin. by apply elem_of_nil in Hin.
  - by left.
  - right. split; [lia|]. rewrite Htr. apply take_ge. lia.
Qed.

Lemma finished_matched_or_exhausted_witness :
  let m := proposer_at
             (state_after evaluateProposal 3 scen2_proposers scen2_proposees)
             "A" in
  is_Some (partner m) \/
  (proposalIndex m = length (priorities m) /\
   targets_of "A"
     [Accepts "X" "A" None; Accepts "X" "B" (Some "A"); NoMoreOptions "A"]
   = priorities m).
Proof.
  apply (finished_matched_or_exhausted evaluateProposal scen2_proposers
           scen2_proposees 3 _
           (state_after evaluateProposal 3 scen2_proposers scen2_proposees));
    [by left|vm_compute; reflexivity|vm_compute; reflexivity].
Defined.

(** ** What a run can raise *)

Section Raises.
Variable evaluate : policy.
Hypothesis evaluate_ok : policy_ok evaluate.
Hypothesis evaluate_total : policy_total evaluate.

Lemma loop_body_raise st e :
  wf st -> unmatched st <> [] -> loop_body evaluate st = Raise e ->
  exists k rest m n,
    unmatched st = k :: rest /\ proposerPref st !! k = Some m /\
    priorities m !! proposalIndex m = Some n /\
    proposees st !! n = None /\ e = KeyError n.
Proof.
  intros [Hpn Hqn Hum Hpart Hrk] Hne. unfold loop_body, getitem.
  destruct (unmatched st) as [|k rest] eqn:Hu; [done|]. clear Hne.
  destruct (Hum k) as [m Hm]; [apply elem_of_cons; by left|]. rewrite Hm. simpl.
  destruct (nextProposal_cases m) as [[Hlen ->]|(n & Hn & ->)]; [done|].
  destruct (proposees st !! n) as [who|] eqn:Hwho; simpl.
  2:{ intros [= <-]. exists k, rest, m, n. done. }
  destruct (evaluate_total who (name m)) as (b & who1 & Hev).
  { intros p Hp. destruct (Hpart _ _ _ Hwho Hp) as [_ (r & Hr & _)]. eauto. }
  rewrite Hev. simpl. destruct b; [|done].
  assert (Hd : exists r, dump who1 (<[k:=advance m]> (proposerPref st)) (k :: rest) = Ok r).
  { unfold dump. destruct (truthy (partner who1)) eqn:Ht; [|eauto].
    destruct (partner who1) as [old|] eqn:Hold; [|eauto].
    apply evaluate_ok in Hev as [[? _]|[_ (rs & Hrs & -> & Hacc)]]; [done|].
    simpl in Hold. destruct (Hpart _ _ _ Hwho Hold) as [[mo Hmo] _].
    unfold getitem. destruct (decide (k = old)) as [->|Hko].
    - rewrite lookup_insert_eq. simpl. eauto.
    - rewrite lookup_insert_ne by done. rewrite Hmo. simpl. eauto. }
  destruct Hd as ([[pp2 um2] d] & ->). done.
Qed.

Lemma iterations_raise (P : State -> Prop) fuel st e :
  (forall s ev s', P s -> body_spec evaluate s ev s' -> P s') ->
  P st -> iterations evaluate fuel st = Raise e ->
  exists s, P s /\ unmatched s <> [] /\ loop_body evaluate s = Raise e.
Proof.
  intros Hstep. revert st. induction fuel as [|fuel IH]; intros st HP H.
  - done.
  - simpl in H. destruct (unmatched st) as [|k rest] eqn:Hum; [done|].
    destruct (loop_body evaluate st) as [[ev s1]|e0] eqn:Hb; simpl in H.
    + destruct (iterations evaluate fuel s1) as [[tr1 s2]|e1] eqn:Hit;
        simpl in H; [done|]. injection H as <-.
      apply (IH s1); [|done]. eapply Hstep; [done|]. by apply loop_body_inv.
    + injection H as <-. exists st. rewrite Hum. done.
Qed.

Lemma from_input_body pl ql st ev st' :
  from_input pl ql st -> body_spec evaluate st ev st' -> from_input pl ql st'.
Proof.
  intros (Hwf & Hp & Hq) Hb. split_and!.
  - by eapply wf_body.
  - intros k m' Hk.
    destruct (body_proposers_frame _ _ _ _ _ _ Hb Hk) as (m & Hm & _ & -> & _).
    eauto.
  - intros n Hn. eapply body_proposees_dom; eauto.
Qed.

Lemma run_raises pl ql fuel e :
  iterations evaluate fuel (init_state pl ql) = Raise e ->
  exists n k prios,
    e = KeyError n /\ (n ∉ ql.*1) /\ (k, prios) ∈ pl /\ n ∈ prios.
Proof.
  intros H.
  apply (iterations_raise (from_input pl ql)) in H
    as (s & (Hwf & Hp & Hq) & Hne & Hb).
  - destruct (loop_body_raise _ _ Hwf Hne Hb)
      as (k & rest & m & n & Hu & Hm & Hn & Hnone & ->).
    exists n, k, (priorities m). split_and!; [done| |eauto|].
    + intros Hin. destruct (Hq _ Hin) as [q Hq']. congruence.
    + by eapply list_elem_of_lookup_2.
  - apply from_input_body.
  - split_and!; [apply init_state_wf| |].
    + intros k m Hk. simpl in Hk.
      by apply build_dict_lookup in Hk as (prio & Hin & ->).
    + intros n Hn. simpl. by apply build_dict_is_Some.
Qed.
End Raises.

(** X5.  The only exception either loop can raise is [KeyError] for an
    identifier that some proposer lists and that is not the name of any
    proposee; no other lookup of the loop ever fails. *)
Theorem run_raises_only_unknown evaluate pl ql fuel e :
  evaluate = evaluateProposal \/ evaluate = evaluateGreedily ->
  loop evaluate fuel (init_state pl ql) = Raised e ->
  exists n k prios,
    e = KeyError n /\ (n ∉ ql.*1) /\ (k, prios) ∈ pl /\ n ∈ prios.
Proof.
  intros Hev Hl.
  assert (Hit : iterations evaluate fuel (init_state pl ql) = Raise e).
  { unfold loop in Hl.
    destruct (iterations evaluate fuel (init_state pl ql)) as [[t s]|e0];
      [by destruct (unmatched s)|congruence]. }
  destruct Hev as [->| ->].
  - by apply (run_raises _ evaluateProposal_ok evaluateProposal_total) in Hit.
  - by apply (run_raises _ evaluateGreedily_ok evaluateGreedily_total) in Hit.
Qed.

Lemma run_raises_only_unknown_witness :
  exists n k prios,
    KeyError "Z" = KeyError n /\ (n ∉ scen4_proposees.*1) /\
    (k, prios) ∈ scen4_proposers /\ n ∈ prios.
Proof.
  apply (run_raises_only_unknown evaluateProposal scen4_proposers
           scen4_proposees 5); [by left|vm_compute; reflexivity].
Defined.

(** ** Ranks, pairs and unmatched proposers *)

Section Positions.
Variable evaluate : policy.

Lemma proposer_positions_step st e st' :
  proposer_positions st -> engine_step evaluate st e st' ->
  proposer_positions st'.
Proof.
  intros Hpos Hs.
  destruct Hs as [k rest m Hu Hm Hp Hlen
                 |k rest m n who Hu Hm Hp Hn Hwho Hev
                 |k rest m n who rs Hu Hm Hp Hn Hwho Hev Hrs Hfq
                 |k rest m n who rs old mOld ro Hu Hm Hp Hn Hwho Hev Hrs Hold
                    Hok Hmo Hpo Hro Hlt];
    intros j mj nj; simpl; intros Hj Hpj.
  - eauto.
  - destruct (decide (j = k)) as [->|Hjk].
    + rewrite lookup_insert_eq in Hj. injection Hj as <-. simpl in Hpj. congruence.
    + rewrite lookup_insert_ne in Hj by done. eauto.
  - destruct (decide (j = k)) as [->|Hjk].
    + rewrite lookup_insert_eq in Hj. injection Hj as <-. simpl in *.
      injection Hpj as <-. exists (proposalIndex m). done.
    + rewrite lookup_insert_ne in Hj by done. eauto.
  - destruct (decide (j = k)) as [->|Hjk].
    + rewrite lookup_insert_eq in Hj. injection Hj as <-. simpl in *.
      injection Hpj as <-. exists (proposalIndex m). done.
    + rewrite lookup_insert_ne in Hj by done.
      destruct (decide (j = old)) as [->|Hjo].
      * rewrite lookup_insert_eq in Hj. by injection Hj as <-.
      * rewrite lookup_insert_ne in Hj by done. eauto.
Qed.

Hypothesis evaluate_ok : policy_ok evaluate.

Lemma run_positions pl ql fuel tr st :
  names_nonempty pl = true ->
  iterations evaluate fuel (init_state pl ql) = Ok (tr, st) ->
  ranks_are_positions st.
Proof.
  intros Hne H.
  apply (iterations_preserve evaluate
           (fun s => (wf s /\ matching s) /\ proposer_positions s)) in H.
  - destruct H as [[[_ _ _ Hpart Hrk] _] Hpos]. split; [done|].
    intros n q p Hq Hp. destruct (Hpart _ _ _ Hq Hp) as [_ (r & Hr & Hrank)].
    exists r. split; [by eapply Hrk|done].
  - intros s e s' [[Hwf Hm] Hpos] Hb.
    pose proof (body_engine_step _ evaluate_ok _ _ _ Hwf Hm Hb) as Hs.
    split_and!; [by eapply wf_body|by eapply matching_step|].
    by eapply proposer_positions_step.
  - split_and!; [apply init_state_wf|by apply init_state_matching|].
    intros k m n Hk Hp. simpl in Hk.
    by apply build_dict_lookup in Hk as (prio & _ & ->).
Qed.

Lemma at_least_as_good_body q ra r st e st' :
  at_least_as_good q ra r st -> body_spec evaluate st e st' ->
  at_least_as_good q ra r st'.
Proof.
  intros (Hwf & q1 & b & rb & Hq1 & Hb1 & Hrk & Hprio & Hrb & Hle) Hb.
  split; [by eapply wf_body|].
  destruct (body_proposees_dom _ _ _ _ r Hb) as [q2 Hq2]; [eauto|].
  destruct (body_proposee_change _ evaluate_ok _ _ _ _ _ Hb Hq2)
    as (q0 & Hq0 & [->|(k & rest & m & rs & d & Hu & Hm & Hn & Hrs & Hacc & -> & _)]);
    rewrite Hq1 in Hq0; injection Hq0 as <-.
  - exists q1, b, rb. done.
  - exists (engaged (name m) (ranked rs q1)), (name m), rs. simpl.
    split_and!; try done; [by rewrite <- Hrk|].
    destruct Hacc as [Hnone|(p & rp & Hp & Hrp & Hlt)]; [congruence|].
    rewrite Hb1 in Hp. injection Hp as <-. rewrite Hrk, Hrb in Hrp.
    injection Hrp as <-. lia.
Qed.
End Positions.

(** X6.  At every quiescent point of either loop (proposer names
    non-empty), each rank field is the 1-based position of the agent's
    current partner in the agent's own preference list, and a matched
    proposer's cursor equals its rank. *)
Theorem ranks_positions evaluate pl ql fuel tr st :
  evaluate = evaluateProposal \/ evaluate = evaluateGreedily ->
  names_nonempty pl = true ->
  iterations evaluate fuel (init_state pl ql) = Ok (tr, st) ->
  ranks_are_positions st.
Proof.
  intros [->| ->] Hne Hit.
  - by eapply (run_positions _ evaluateProposal_ok).
  - by eapply (run_positions _ evaluateGreedily_ok).
Qed.

Lemma ranks_positions_witness :
  ranks_are_positions
    (state_after evaluateProposal 3 scen1_proposers scen1_proposees).
Proof.
  apply (ranks_positions evaluateProposal scen1_proposers scen1_proposees 3
           [Accepts "X" "A" None; Rejects "X" "B"; Accepts "Y" "B" None]);
    [by left|reflexivity|vm_compute; reflexivity].
Defined.

(** X7.  At every quiescent point of either loop (proposer names
    non-empty) the pairing is one-to-one: two proposers never hold the same
    proposee, and two proposees never hold the same proposer. *)
Theorem pairing_one_to_one evaluate pl ql fuel tr st :
  evaluate = evaluateProposal \/ evaluate = evaluateGreedily ->
  names_nonempty pl = true ->
  iterations evaluate fuel (init_state pl ql) = Ok (tr, st) ->
  (forall p1 p2 r, partner_of_proposer st p1 = Some r ->
                   partner_of_proposer st p2 = Some r -> p1 = p2) /\
  (forall r1 r2 p, partner_of_proposee st r1 = Some p ->
                   partner_of_proposee st r2 = Some p -> r1 = r2).
Proof.
  intros Hev Hne Hit.
  assert (Hm : matching st).
  { destruct Hev as [->| ->].
    - by destruct (run_matching _ evaluateProposal_ok _ _ _ _ _ Hne Hit).
    - by destruct (run_matching _ evaluateGreedily_ok _ _ _ _ _ Hne Hit). }
  destruct Hm as [_ _ _ Hmp Hmq].
  unfold partner_of_proposer, partner_of_proposee. split.
  - intros p1 p2 r H1 H2.
    destruct (proposerPref st !! p1) as [m1|] eqn:Hp1; simpl in H1; [|done].
    destruct (proposerPref st !! p2) as [m2|] eqn:Hp2; simpl in H2; [|done].
    destruct (Hmp _ _ _ Hp1 H1) as (q1 & Hq1 & Hb1).
    destruct (Hmp _ _ _ Hp2 H2) as (q2 & Hq2 & Hb2). congruence.
  - intros r1 r2 p H1 H2.
    destruct (proposees st !! r1) as [q1|] eqn:Hr1; simpl in H1; [|done].
    destruct (proposees st !! r2) as [q2|] eqn:Hr2; simpl in H2; [|done].
    destruct (Hmq _ _ _ Hr1 H1) as (m1 & Hm1 & Hb1).
    destruct (Hmq _ _ _ Hr2 H2) as (m2 & Hm2 & Hb2). congruence.
Qed.

Lemma pairing_one_to_one_witness :
  (forall p1 p2 r,
     partner_of_proposer
       (state_after evaluateGreedily 3 scen2_proposers scen2_proposees) p1
     = Some r ->
     partner_of_proposer
       (state_after evaluateGreedily 3 scen2_proposers scen2_proposees) p2
     = Some r -> p1 = p2) /\
  (forall r1 r2 p,
     partner_of_proposee
       (state_after evaluateGreedily 3 scen2_proposers scen2_proposees) r1
     = Some p ->
     partner_of_proposee
       (state_after evaluateGreedily 3 scen2_proposers scen2_proposees) r2
     = Some p -> r1 = r2).
Proof.
  apply (pairing_one_to_one evaluateGreedily scen2_proposers scen2_proposees 3
           [Accepts "X" "A" None; Rejects "X" "B"; Accepts "Y" "B" None]);
    [by right|reflexivity|vm_compute; reflexivity].
Defined.

(** X8.  Over any stretch of a run of either loop, a proposee that has a
    partner still has one afterwards, and its rank has not grown; it is
    strictly smaller whenever the partner is a different one. *)
Theorem proposee_rank_never_grows evaluate pl ql fuel tr st fuel' tr' st'
    r (q0 : Proposee) a :
  evaluate = evaluateProposal \/ evaluate = evaluateGreedily ->
  iterations evaluate fuel (init_state pl ql) = Ok (tr, st) ->
  iterations evaluate fuel' st = Ok (tr', st') ->
  proposees st !! r = Some q0 -> partner q0 = Some a ->
  exists (q1 : Proposee) b x y,
    proposees st' !! r = Some q1 /\ partner q1 = Some b /\
    rank q0 = Some x /\ rank q1 = Some y /\ y <= x /\ (a <> b -> y < x).
Proof.
  intros Hev Hit Hit' Hq0 Ha.
  assert (Hok : policy_ok evaluate).
  { destruct Hev as [->| ->];
      [apply evaluateProposal_ok|apply evaluateGreedily_ok]. }
  pose proof (run_wf _ Hok _ _ _ _ _ Hit) as Hwf.
  destruct (wf_partner _ Hwf _ _ _ Hq0 Ha) as [_ (ra & Hra & Hrank0)].
  apply (iterations_preserve evaluate (at_least_as_good q0 ra r)) in Hit'.
  - destruct Hit' as (Hwf' & q1 & b & rb & Hq1 & Hb & Hrk & Hprio & Hrb & Hle).
    destruct (wf_partner _ Hwf' _ _ _ Hq1 Hb) as [_ (rb' & Hrb' & Hrank1)].
    rewrite Hrk, Hrb in Hrb'. injection Hrb' as <-.
    exists q1, b, (ra + 1), (rb + 1). split_and!; try done; [lia|].
    intros Hab. assert (rb <> ra); [|lia]. intros ->.
    pose proof (wf_ranking _ Hwf _ _ _ _ Hq0 Hra) as H1.
    pose proof (wf_ranking _ Hwf _ _ _ _ Hq0 Hrb) as H2. congruence.
  - intros s e s'. by apply at_least_as_good_body.
  - split; [done|]. exists q0, a, ra. done.
Qed.

Lemma proposee_rank_never_grows_witness :
  exists (q1 : Proposee) b x y,
    proposees (state_after evaluateProposal 3 scen2_proposers scen2_proposees)
      !! "X" = Some q1 /\
    partner q1 = Some b /\
    rank (proposee_at
            (state_after evaluateProposal 1 scen2_proposers scen2_proposees)
            "X") = Some x /\
    rank q1 = Some y /\ y <= x /\ ("A" <> b -> y < x).
Proof.
  apply (proposee_rank_never_grows evaluateProposal scen2_proposers
           scen2_proposees 1 [Accepts "X" "A" None]
           (state_after evaluateProposal 1 scen2_proposers scen2_proposees)
           2 [Accepts "X" "B" (Some "A"); NoMoreOptions "A"] _ "X");
    [by left|vm_compute; reflexivity|vm_compute; reflexivity
    |vm_compute; reflexivity|reflexivity].
Defined.

Lemma unmatched_not_blocking st p r :
  courtship st -> settled st -> unmatched st = [] ->
  blocking_unmatched st p r = false.
Proof.
  intros [Htried _] Hset Hdone. unfold blocking_unmatched.
  destruct (proposerPref st !! p) as [m|] eqn:Hm; [|done].
  destruct (proposees st !! r) as [q|] eqn:Hq; [|done].
  destruct (partner m) as [cur|] eqn:Hcur; [done|].
  apply andb_false_iff. case_bool_decide as Hin; [right|by left].
  apply list_elem_of_lookup in Hin as [i Hi].
  destruct (Hset _ _ Hm) as [Hu|[[x Hx]|Hex]].
  - rewrite Hdone in Hu. by apply elem_of_nil in Hu.
  - congruence.
  - apply lookup_lt_Some in Hi as Hlt.
    destruct (Htried p m i r Hm) as [Hc|(q' & Hq' & Hr)]; [lia|done|congruence|].
    rewrite Hq in Hq'. injection Hq' as <-. unfold proposee_prefers.
    destruct Hr as [->|(p' & rp & rk & -> & -> & -> & Hlt')]; [done|].
    apply Nat.ltb_ge. lia.
Qed.

(** X9.  When [doMatch] finishes (proposer names non-empty), no unmatched
    proposer forms a blocking pair either: every proposee on the list of an
    unmatched proposer does not rank it, or holds a partner it ranks
    strictly better. *)
Theorem doMatch_unmatched_not_blocking pl ql fuel tr st p r :
  names_nonempty pl = true ->
  doMatch fuel pl ql = Finished tr st ->
  blocking_unmatched st p r = false.
Proof.
  intros Hne Hl. apply loop_Finished in Hl as [Hit Hdone].
  destruct (run_stable_inv _ _ _ _ _ Hne Hit) as (_ & _ & Hcs).
  apply unmatched_not_blocking; [done| |done].
  by eapply (run_settled _ evaluateProposal_ok).
Qed.

Lemma doMatch_unmatched_not_blocking_witness :
  blocking_unmatched
    (state_after evaluateProposal 3 scen2_proposers scen2_proposees) "A" "X"
  = false.
Proof.
  apply (doMatch_unmatched_not_blocking scen2_proposers scen2_proposees 3
           [Accepts "X" "A" None; Accepts "X" "B" (Some "A"); NoMoreOptions "A"]);
    [reflexivity|vm_compute; reflexivity].
Defined.

(** The greedy outcome can leave an unmatched proposer in a blocking pair:
    [X] holds [A] although it ranks the unmatched [B] first. *)
Example greedy_unmatched_blocking :
  blocking_unmatched
    (state_after evaluateGreedily 5 [("A", ["X"]); ("B", ["X"])]
       [("X", ["B"; "A"])]) "B" "X" = true.
Proof. vm_compute. reflexivity. Qed.

(** ** The greedy policy and the reverse lookup *)

(** X10.  [evaluateGreedily] never raises; it accepts exactly when the
    suitor is ranked and the proposee has no partner, and then only sets
    the rank to the suitor's index plus one; otherwise it changes nothing.
    Whatever it accepts, [evaluateProposal] accepts with the same result,
    and on an unpartnered proposee the two policies agree. *)
Theorem evaluateGreedily_spec (self : Proposee) (suitor : string) :
  exists b self',
    evaluateGreedily self suitor = Ok (b, self') /\
    (b = true <-> is_Some (ranking self !! suitor) /\ partner self = None) /\
    (b = true ->
       evaluateProposal self suitor = Ok (true, self') /\
       partner self' = partner self /\ name self' = name self /\
       priorities self' = priorities self /\ ranking self' = ranking self /\
       exists rs, ranking self !! suitor = Some rs /\ rank self' = Some (rs + 1)) /\
    (b = false -> self' = self) /\
    (partner self = None ->
       evaluateProposal self suitor = evaluateGreedily self suitor).
Proof.
  unfold evaluateGreedily, evaluateProposal.
  destruct (ranking self !! suitor) as [rs|] eqn:Hs.
  - destruct (partner self) as [p|] eqn:Hp; simpl.
    + exists false, self. split_and!; try done.
      split; [done|]. by intros [_ ?].
    + eexists true, _. split; [done|]. split_and!; try done.
      intros _. split_and!; try done. by exists rs.
  - exists false, self. split_and!; try done.
    split; [done|]. intros [[? ?] _]. done.
Qed.

Lemma build_ranking_is_Some prio rk acc s :
  is_Some (build_ranking prio rk acc !! s) <-> s ∈ prio \/ is_Some (acc !! s).
Proof.
  revert rk acc. induction prio as [|x prio IH]; intros rk acc; simpl.
  - rewrite elem_of_nil. tauto.
  - rewrite IH, elem_of_cons. destruct (decide (x = s)) as [->|Hne].
    + rewrite lookup_insert_eq. split; [by left; left|by right; eauto].
    + rewrite lookup_insert_ne by done. split; [tauto|].
      intros [[?|?]|?]; [congruence|tauto|tauto].
Qed.

Lemma build_ranking_last prio rk acc s r :
  build_ranking prio rk acc !! s = Some r <->
  (exists i, prio !! i = Some s /\ (forall j, i < j -> prio !! j <> Some s) /\
             r = rk + i) \/
  ((s ∉ prio) /\ acc !! s = Some r).
Proof.
  revert rk acc. induction prio as [|x prio IH]; intros rk acc; simpl.
  - split; [intros H; right; split; [apply not_elem_of_nil|done]|].
    intros [(i & Hi & _)|[_ H]]; done.
  - rewrite IH. split.
    + intros [(i & Hi & Hlast & ->)|[Hnot H]].
      * left. exists (S i). split_and!; [done| |lia].
        intros [|j] Hj; [lia|]. simpl. apply Hlast. lia.
      * destruct (decide (x = s)) as [->|Hne].
        -- rewrite lookup_insert_eq in H. injection H as <-. left. exists 0.
           split_and!; [done| |lia]. intros [|j] Hj; [lia|]. simpl.
           intros Hs. apply Hnot. by eapply list_elem_of_lookup_2.
        -- rewrite lookup_insert_ne in H by done. right. split; [|done].
           apply not_elem_of_cons. done.
    + intros [(i & Hi & Hlast & ->)|[Hnot H]].
      * destruct i as [|i]; simpl in Hi.
        -- injection Hi as ->. right. rewrite lookup_insert_eq. split; [|f_equal; lia].
           intros Hin. apply list_elem_of_lookup in Hin as [j Hj].
           by apply (Hlast (S j)); [lia|].
        -- left. exists i. split_and!; [done| |lia].
           intros j Hj. apply (Hlast (S j)). lia.
      * apply not_elem_of_cons in Hnot as [Hne Hnot]. right.
        rewrite lookup_insert_ne by done. done.
Qed.

(** X11.  The reverse lookup built by [Proposee.__init__] has exactly the
    listed identifiers as keys and maps each one to the index of its last
    occurrence in the list; on a list without repetitions, looking up the
    entry at index [i] gives [i] back. *)
Theorem ranking_is_last_index nm prio s :
  (is_Some (ranking (Proposee_init nm prio) !! s) <-> s ∈ prio) /\
  (forall r, ranking (Proposee_init nm prio) !! s = Some r <->
     prio !! r = Some s /\ forall j, r < j -> prio !! j <> Some s) /\
  (NoDup prio ->
   forall i, prio !! i = Some s ->
             ranking (Proposee_init nm prio) !! s = Some i).
Proof.
  assert (Hlast : forall r, ranking (Proposee_init nm prio) !! s = Some r <->
     prio !! r = Some s /\ forall j, r < j -> prio !! j <> Some s).
  { intros r. simpl. rewrite build_ranking_last. split.
    - intros [(i & Hi & Hl & ->)|[_ H]]; [done|]. by rewrite lookup_empty in H.
    - intros [Hr Hl]. left. exists r. done. }
  split_and!; [|done|].
  - simpl. rewrite build_ranking_is_Some, lookup_empty.
    split; [intros [?|[? ?]]; done|by left].
  - intros Hnd i Hi. apply Hlast. split; [done|]. intros j Hj Hs.
    pose proof (NoDup_lookup _ _ _ _ Hnd Hi Hs). lia.
Qed.

(** ** The dictionaries of the initial state *)

Lemma build_dict_snoc {V : Type} (mk : string -> list string -> V) l k prio :
  build_dict mk (l ++ [(k, prio)]) = <[k := mk k prio]> (build_dict mk l).
Proof. unfold build_dict. by rewrite foldl_app. Qed.

Lemma dict_keys_snoc l k prio :
  dict_keys (l ++ [(k, prio)]) =
  if bool_decide (k ∈ dict_keys l) then dict_keys l else dict_keys l ++ [k].
Proof. unfold dict_keys. by rewrite foldl_app. Qed.

(** X12.  The dictionaries [doMatch] builds from the parsed lists: the
    keys are the names of the list, each once, and a later entry for a name
    replaces an earlier one.  When no name is repeated, the queue starts as
    the names in file order and every agent starts with its own list, no
    partner, no rank and (for a proposer) cursor 0. *)
Theorem init_state_spec pl ql :
  NoDup (unmatched (init_state pl ql)) /\
  (forall k, k ∈ unmatched (init_state pl ql) <-> k ∈ pl.*1) /\
  (forall k prio,
     proposerPref (init_state (pl ++ [(k, prio)]) ql) !! k
     = Some (Proposer_init k prio)) /\
  (NoDup pl.*1 ->
   unmatched (init_state pl ql) = pl.*1 /\
   forall k prio, (k, prio) ∈ pl ->
     proposerPref (init_state pl ql) !! k = Some (Proposer_init k prio)) /\
  (NoDup ql.*1 ->
   forall n prio, (n, prio) ∈ ql ->
     proposees (init_state pl ql) !! n = Some (Proposee_init n prio)).
Proof.
  assert (Hlk : forall (V : Type) (mk : string -> list string -> V) l,
            NoDup l.*1 -> forall k prio, (k, prio) ∈ l ->
            build_dict mk l !! k = Some (mk k prio)).
  { intros V mk l. induction l as [|[k0 p0] l IH] using rev_ind; intros Hnd k prio Hin.
    - by apply elem_of_nil in Hin.
    - rewrite fmap_app in Hnd. apply NoDup_app in Hnd as (Hnd & Hdis & _).
      rewrite build_dict_snoc. apply elem_of_app in Hin as [Hin|Hin].
      + rewrite lookup_insert_ne; [by apply IH|]. intros ->.
        apply (Hdis k); [by eapply pair_elem_fst|]. simpl.
        by apply list_elem_of_singleton.
      + apply list_elem_of_singleton in Hin. injection Hin as -> ->.
        by rewrite lookup_insert_eq. }
  split_and!; simpl.
  - apply dict_keys_NoDup.
  - apply dict_keys_elem.
  - intros k prio. by rewrite build_dict_snoc, lookup_insert_eq.
  - intros Hnd. split; [|by apply Hlk]. clear Hlk.
    induction pl as [|[k0 p0] l IH] using rev_ind; [done|].
    rewrite fmap_app in Hnd |- *. apply NoDup_app in Hnd as (Hnd & Hdis & _).
    rewrite dict_keys_snoc, IH by done. simpl.
    rewrite bool_decide_eq_false_2; [done|]. intros Hin.
    apply (Hdis k0 Hin). simpl. by apply list_elem_of_singleton.
  - intros Hnd. by apply Hlk.
Qed.

(** ** The report *)

Example report_scen2 :
  report scen2_proposers
    (state_after evaluateProposal 10 scen2_proposers scen2_proposees)
  = inr ([UnpairedLine "A"; PairedLine "B" 1 "X" 1],
         {| totalUtility := 2; proposerUtility := 1; proposeeUtility := 1;
            matchCt := 1 |}).
Proof. vm_compute. reflexivity. Qed.

Lemma print_loop_spec qs vals out0 t0 out t :
  print_loop qs vals out0 t0 = inr (out, t) ->
  exists out1,
    out = out0 ++ out1 /\ Forall2 (line_for qs) vals out1 /\
    proposerUtility t = proposerUtility t0 + sum_list (line_proposer_rank <$> out1) /\
    proposeeUtility t = proposeeUtility t0 + sum_list (line_proposee_rank <$> out1) /\
    matchCt t = matchCt t0 + sum_list (line_paired <$> out1) /\
    totalUtility t + (proposerUtility t0 + proposeeUtility t0) =
      totalUtility t0 + (proposerUtility t + proposeeUtility t).
Proof.
  revert out0 t0. induction vals as [|m vals IH]; simpl; intros out0 t0 H.
  - injection H as <- <-. exists []. rewrite app_nil_r. simpl.
    split_and!; try done; try lia; try constructor.
  - destruct (print_one qs out0 t0 m) as [e|[out' t']] eqn:H1; [done|].
    apply IH in H as (out1 & -> & Hall & Hpu & Hqu & Hct & Htot).
    unfold print_one in H1. destruct (truthy (partner m)) eqn:Ht.
    + apply truthy_true in Ht as Ht'. destruct Ht' as (pn & Hpn & Hne).
      rewrite Hpn in H1. destruct (qs !! pn) as [q|] eqn:Hq; [|done].
      destruct (rank m) as [r|] eqn:Hr; [|done].
      destruct (rank q) as [rq|] eqn:Hrq; [|done].
      injection H1 as <- <-. simpl in *.
      exists (PairedLine (name m) r pn rq :: out1). rewrite <- app_assoc. csimpl.
      split_and!; try done; try lia.
      constructor; [|done]. unfold line_for. rewrite Ht.
      exists pn, q, r, rq. done.
    + injection H1 as <- <-.
      exists (UnpairedLine (name m) :: out1). rewrite <- app_assoc. csimpl.
      split_and!; try done.
      constructor; [|done]. unfold line_for. by rewrite Ht.
Qed.

(** X13.  When [printPairings] returns, it has printed one line per
    proposer, in order: a paired line with both ranks for a proposer whose
    partner is a non-empty name, an unpaired line otherwise.  The proposer
    and proposee utilities are the sums of the ranks on the paired lines,
    the match count is the number of paired lines, and the total utility is
    the sum of the two utilities. *)
Theorem printPairings_spec vals qs out t :
  printPairings vals qs = inr (out, t) ->
  Forall2 (line_for qs) vals out /\
  proposerUtility t = sum_list (line_proposer_rank <$> out) /\
  proposeeUtility t = sum_list (line_proposee_rank <$> out) /\
  matchCt t = sum_list (line_paired <$> out) /\
  matchCt t <= length vals /\
  totalUtility t = proposerUtility t + proposeeUtility t.
Proof.
  intros H. apply print_loop_spec in H as (out1 & -> & Hall & Hpu & Hqu & Hct & Htot).
  simpl in *. split_and!; try done; try lia.
  rewrite Hct. simpl. apply Forall2_length in Hall. rewrite Hall.
  clear. induction out1 as [|l out1 IH]; csimpl; [done|].
  destruct l; simpl; lia.
Qed.

Lemma printPairings_spec_witness :
  Forall2 (line_for (proposees (state_after evaluateProposal 10 scen2_proposers
                                  scen2_proposees)))
    (dict_values (dict_keys scen2_proposers)
       (proposerPref (state_after evaluateProposal 10 scen2_proposers
                        scen2_proposees)))
    [UnpairedLine "A"; PairedLine "B" 1 "X" 1] /\
  1 = sum_list (line_proposer_rank <$> [UnpairedLine "A"; PairedLine "B" 1 "X" 1]) /\
  1 = sum_list (line_proposee_rank <$> [UnpairedLine "A"; PairedLine "B" 1 "X" 1]) /\
  1 = sum_list (line_paired <$> [UnpairedLine "A"; PairedLine "B" 1 "X" 1]) /\
  1 <= length (dict_values (dict_keys scen2_proposers)
                 (proposerPref (state_after evaluateProposal 10 scen2_proposers
                                  scen2_proposees))) /\
  2 = 1 + 1.
Proof.
  apply (printPairings_spec _ _ [UnpairedLine "A"; PairedLine "B" 1 "X" 1]
           {| totalUtility := 2; proposerUtility := 1; proposeeUtility := 1;
              matchCt := 1 |}).
  vm_compute. reflexivity.
Defined.

Section Printable.
Variable evaluate : policy.
Hypothesis evaluate_ok : policy_ok evaluate.

Lemma body_proposer_change st e st' j (m' : Proposer) :
  wf st -> body_spec evaluate st e st' -> proposerPref st' !! j = Some m' ->
  exists m, proposerPref st !! j = Some m /\
    ((partner m' = partner m /\ rank m' = rank m) \/
     partner m' = None \/
     exists n q, partner m' = Some n /\ is_Some (rank m') /\
                 proposees st' !! n = Some q /\ is_Some (rank q)).
Proof.
  intros [Hpn Hqn _ _ _] Hb.
  destruct Hb as [k rest m Hum Hm Hlen|k rest m n who who1 Hum Hm Hn Hwho Hev
                 |k rest m n who who1 pp2 um2 d Hum Hm Hn Hwho Hev Hd];
    simpl; intros Hj.
  - exists m'. split; [|by left].
    destruct (decide (k = j)) as [->|Hne].
    + rewrite lookup_insert_eq in Hj. by simplify_eq.
    + by rewrite lookup_insert_ne in Hj.
  - destruct (decide (k = j)) as [->|Hne].
    + rewrite lookup_insert_eq in Hj. injection Hj as <-. exists m.
      split; [done|]. by left.
    + rewrite lookup_insert_ne in Hj by done. exists m'. split; [done|]. by left.
  - destruct (evaluate_ok _ _ _ _ Hev)
      as [[? _]|[_ (rs & Hrs & -> & Hacc)]]; [done|].
    destruct (decide (k = j)) as [->|Hne].
    + rewrite lookup_insert_eq in Hj. injection Hj as <-. exists m.
      split; [done|]. right; right. simpl.
      exists (name who), (engaged (name m) (ranked rs who)).
      rewrite (Hqn _ _ Hwho), lookup_insert_eq. simpl. eauto.
    + rewrite lookup_insert_ne in Hj by done.
      destruct (dump_lookup _ _ _ _ _ _ _ _ Hd Hj) as (m0 & Hm0 & Hc0).
      rewrite lookup_insert_ne in Hm0 by done. exists m0. split; [done|].
      destruct Hc0 as [->| ->]; [by left|by right; left].
Qed.

Lemma printable_body st e st' :
  wf st -> printable st -> body_spec evaluate st e st' -> printable st'.
Proof.
  intros Hwf Hpr Hb j m' n' Hj Hp.
  destruct (body_proposer_change _ _ _ _ _ Hwf Hb Hj)
    as (m & Hm & [[Hpm Hrm]|[Hnone|(n & q & Hn & Hr & Hq & Hrq)]]).
  - rewrite Hpm in Hp. destruct (Hpr _ _ _ Hm Hp) as [Hr (q & Hq & Hrq)].
    rewrite Hrm. split; [done|].
    destruct (body_proposees_dom _ _ _ _ n' Hb) as [q' Hq']; [eauto|].
    exists q'. split; [done|].
    destruct (body_proposee_change _ evaluate_ok _ _ _ _ _ Hb Hq')
      as (q0 & Hq0 & [->|(k & rest & mk & rs & d & _ & _ & _ & _ & _ & -> & _)]).
    + congruence.
    + simpl. eauto.
  - congruence.
  - rewrite Hn in Hp. injection Hp as <-. eauto.
Qed.

Lemma run_printable pl ql fuel tr st :
  iterations evaluate fuel (init_state pl ql) = Ok (tr, st) ->
  wf st /\ printable st /\
  forall k, k ∈ dict_keys pl -> is_Some (proposerPref st !! k).
Proof.
  intros H.
  apply (iterations_preserve evaluate
           (fun s => wf s /\ printable s /\
              forall k, k ∈ dict_keys pl -> is_Some (proposerPref s !! k)))
    in H; [done| |].
  - intros s e s' (Hwf & Hpr & Hk) Hb. split_and!.
    + by eapply wf_body.
    + by eapply printable_body.
    + intros k Hin. eapply body_proposers_dom; eauto.
  - split_and!; [apply init_state_wf| |].
    + intros k m n Hk Hp. simpl in Hk.
      by apply build_dict_lookup in Hk as (prio & _ & ->).
    + intros k Hin. simpl. by apply build_dict_is_Some, dict_keys_elem.
Qed.
End Printable.

Lemma print_loop_ok qs vals out0 t0 :
  (forall (m : Proposer) n, m ∈ vals -> partner m = Some n ->
     is_Some (rank m) /\ exists q : Proposee, qs !! n = Some q /\ is_Some (rank q)) ->
  exists out t, print_loop qs vals out0 t0 = inr (out, t).
Proof.
  revert out0 t0. induction vals as [|m vals IH]; simpl; intros out0 t0 H.
  - eauto.
  - assert (H1 : exists out' t', print_one qs out0 t0 m = inr (out', t')).
    { unfold print_one. destruct (truthy (partner m)) eqn:Ht; [|eauto].
      destruct (partner m) as [pn|] eqn:Hpn; [|eauto].
      destruct (H m pn) as [[r Hr] (q & Hq & [rq Hrq])];
        [apply elem_of_cons; by left|done|].
      rewrite Hq, Hr, Hrq. eauto. }
    destruct H1 as (out' & t' & ->). apply IH.
    intros m0 n Hin. apply H, elem_of_cons. by right.
Qed.

Lemma dict_values_elem {V : Type} (order : list string) (d : gmap string V) v :
  v ∈ dict_values order d -> exists k, k ∈ order /\ d !! k = Some v.
Proof. unfold dict_values. by rewrite list_elem_of_omap. Qed.

Lemma dict_values_length {V : Type} (order : list string) (d : gmap string V) :
  (forall k, k ∈ order -> is_Some (d !! k)) ->
  length (dict_values order d) = length order.
Proof.
  induction order as [|k order IH]; simpl; intros H; [done|].
  destruct (H k) as [v Hv]; [apply elem_of_cons; by left|].
  unfold dict_values in *. simpl. rewrite Hv. simpl. f_equal. apply IH.
  intros k' Hk'. apply H, elem_of_cons. by right.
Qed.

(** X14.  On every state a run of either loop goes through, whatever the
    input, [printPairings] raises nothing (every partner it looks up is a
    proposee and every rank it adds is a number) and prints one line per
    proposer. *)
Theorem report_never_raises evaluate pl ql fuel tr st :
  evaluate = evaluateProposal \/ evaluate = evaluateGreedily ->
  iterations evaluate fuel (init_state pl ql) = Ok (tr, st) ->
  exists out t, report pl st = inr (out, t) /\ length out = proposer_count pl.
Proof.
  intros Hev Hit.
  assert (Hok : policy_ok evaluate).
  { destruct Hev as [->| ->];
      [apply evaluateProposal_ok|apply evaluateGreedily_ok]. }
  destruct (run_printable _ Hok _ _ _ _ _ Hit) as (Hwf & Hpr & Hkeys).
  unfold report, printPairings.
  match goal with |- context [print_loop ?q ?v ?o ?t0] =>
    destruct (print_loop_ok q v o t0) as (out & t & Hp) end.
  { intros m n Hin Hp. apply dict_values_elem in Hin as (k & _ & Hk). eauto. }
  exists out, t. split; [done|].
  apply print_loop_spec in Hp as (out1 & -> & Hall & _).
  apply Forall2_length in Hall. simpl. rewrite <- Hall.
  by apply dict_values_length.
Qed.

Lemma report_never_raises_witness :
  exists out t,
    report scen2_proposers
      (state_after evaluateProposal 2 scen2_proposers scen2_proposees)
    = inr (out, t) /\
    length out = proposer_count scen2_proposers.
Proof.
  apply (report_never_raises evaluateProposal scen2_proposers scen2_proposees 2
           [Accepts "X" "A" None; Accepts "X" "B" (Some "A")]);
    [by left|vm_compute; reflexivity].
Defined.

(** X15.  On a state of a run of either loop (proposer names non-empty),
    every paired line of the report names a proposer and a proposee that
    hold each other as partner, and the two ranks on the line are the
    1-based positions of each in the other's preference list. *)
Theorem report_lines_are_pairs evaluate pl ql fuel tr st out t k r n rq :
  evaluate = evaluateProposal \/ evaluate = evaluateGreedily ->
  names_nonempty pl = true ->
  iterations evaluate fuel (init_state pl ql) = Ok (tr, st) ->
  report pl st = inr (out, t) ->
  PairedLine k r n rq ∈ out ->
  partner_of_proposer st k = Some n /\ partner_of_proposee st n = Some k /\
  exists (m : Proposer) (q : Proposee) i j,
    proposerPref st !! k = Some m /\ proposees st !! n = Some q /\
    r = i + 1 /\ rq = j + 1 /\
    priorities m !! i = Some n /\ priorities q !! j = Some k.
Proof.
  intros Hev Hne Hit Hrep Hin.
  assert (Hok : policy_ok evaluate).
  { destruct Hev as [->| ->];
      [apply evaluateProposal_ok|apply evaluateGreedily_ok]. }
  destruct (run_matching _ Hok _ _ _ _ _ Hne Hit) as [Hwf Hmt].
  destruct (run_positions _ Hok _ _ _ _ _ Hne Hit) as [Hpp Hpq].
  unfold report, printPairings in Hrep.
  apply print_loop_spec in Hrep as (out1 & -> & Hall & _). simpl in Hin.
  apply list_elem_of_lookup in Hin as [ix Hix].
  destruct (Forall2_lookup_r _ _ _ _ _ Hall Hix) as (m & Hm & Hline).
  apply list_elem_of_lookup_2, dict_values_elem in Hm as (k' & _ & Hk').
  unfold line_for in Hline. destruct (truthy (partner m)); [|done].
  destruct Hline as (pn & q & r' & rq' & Hpn & Hq & Hr & Hrq & [= Hk -> -> ->]).
  rewrite (wf_proposer_name _ Hwf _ _ Hk') in Hk. subst k'.
  destruct (mt_proposer _ Hmt _ _ _ Hk' Hpn) as (q0 & Hq0 & Hpq0).
  rewrite Hq in Hq0. injection Hq0 as <-.
  destruct (Hpp _ _ _ Hk' Hpn) as (i & Hi & Hri & _).
  destruct (Hpq _ _ _ Hq Hpq0) as (j & Hj & Hrj).
  unfold partner_of_proposer, partner_of_proposee. rewrite Hk', Hq. simpl.
  split_and!; [done..|]. exists m, q, i, j.
  split_and!; try done; congruence.
Qed.

Lemma report_lines_are_pairs_witness :
  partner_of_proposer
    (state_after evaluateProposal 3 scen2_proposers scen2_proposees) "B"
  = Some "X" /\
  partner_of_proposee
    (state_after evaluateProposal 3 scen2_proposers scen2_proposees) "X"
  = Some "B" /\
  exists (m : Proposer) (q : Proposee) i j,
    proposerPref
      (state_after evaluateProposal 3 scen2_proposers scen2_proposees) !! "B"
    = Some m /\
    proposees
      (state_after evaluateProposal 3 scen2_proposers scen2_proposees) !! "X"
    = Some q /\
    1 = i + 1 /\ 1 = j + 1 /\
    priorities m !! i = Some "X" /\ priorities q !! j = Some "B".
Proof.
  apply (report_lines_are_pairs evaluateProposal scen2_proposers
           scen2_proposees 3
           [Accepts "X" "A" None; Accepts "X" "B" (Some "A"); NoMoreOptions "A"]
           _ [UnpairedLine "A"; PairedLine "B" 1 "X" 1]
           {| totalUtility := 2; proposerUtility := 1; proposeeUtility := 1;
              matchCt := 1 |});
    [by left|reflexivity|vm_compute; reflexivity|vm_compute; reflexivity|].
  apply elem_of_cons. right. apply elem_of_cons. by left.
Defined.

(** ** The program on a pair of files *)

Example run_files_example :
  trace_of (run_files py_isspace evaluateProposal 10 employers_lines
              applicants_lines)
  = Some [Accepts "X" "A" None; Accepts "X" "B" (Some "A"); NoMoreOptions "A"].
Proof. vm_compute. reflexivity. Qed.

Lemma run_files_Finished isspace evaluate fuel l1 l2 tr st :
  run_files isspace evaluate fuel l1 l2 = Finished tr st ->
  exists pl ql,
    parseFile isspace l1 = Ok pl /\ parseFile isspace l2 = Ok ql /\
    names_nonempty pl = true /\
    loop evaluate fuel (init_state pl ql) = Finished tr st.
Proof.
  unfold run_files.
  destruct (parseFile isspace l1) as [pl|] eqn:H1; [|done].
  destruct (parseFile isspace l2) as [ql|] eqn:H2; [|done].
  intros H. exists pl, ql. split_and!; try done.
  by destruct (parseFile_Ok _ _ _ H1).
Qed.

(** X16.  When the program finishes on a pair of files, with either loop,
    the partner fields are symmetric and every rank is the 1-based
    position of the partner in the agent's list; with the stable loop the
    result has no blocking pair, neither with a matched nor with an
    unmatched proposer.  Nothing is assumed about the files: [parseFile]
    never returns an empty name. *)
Theorem run_files_result isspace evaluate fuel l1 l2 tr st :
  evaluate = evaluateProposal \/ evaluate = evaluateGreedily ->
  run_files isspace evaluate fuel l1 l2 = Finished tr st ->
  symmetric st /\ ranks_are_positions st /\
  (evaluate = evaluateProposal ->
   stable st /\ forall p r, blocking_unmatched st p r = false).
Proof.
  intros Hev H.
  apply run_files_Finished in H as (pl & ql & _ & _ & Hne & Hl).
  apply loop_Finished in Hl as [Hit Hdone].
  assert (Hok : policy_ok evaluate).
  { destruct Hev as [->| ->];
      [apply evaluateProposal_ok|apply evaluateGreedily_ok]. }
  destruct (run_matching _ Hok _ _ _ _ _ Hne Hit) as [Hwf Hmt].
  split_and!.
  - by apply matching_symmetric.
  - by eapply (run_positions _ Hok).
  - intros ->. destruct (run_stable_inv _ _ _ _ _ Hne Hit) as (_ & _ & Hcs).
    split; [by apply courtship_stable|]. intros p r.
    apply unmatched_not_blocking; [done| |done].
    by eapply (run_settled _ evaluateProposal_ok).
Qed.

Lemma run_files_result_witness :
  symmetric files_result /\ ranks_are_positions files_result /\
  (evaluateProposal = evaluateProposal ->
   stable files_result /\
   forall p r, blocking_unmatched files_result p r = false).
Proof.
  apply (run_files_result py_isspace evaluateProposal 10 employers_lines
           applicants_lines
           [Accepts "X" "A" None; Accepts "X" "B" (Some "A"); NoMoreOptions "A"]);
    [by left|vm_compute; reflexivity].
Defined.

(** X17.  The program on a pair of files can only raise [IndexError], for
    a line of one of the files that is not blank and has no colon, or
    [KeyError], for an identifier listed in the proposers' file that is not
    the name of an entry of the proposees' file. *)
Theorem run_files_raises isspace evaluate fuel l1 l2 e :
  evaluate = evaluateProposal \/ evaluate = evaluateGreedily ->
  run_files isspace evaluate fuel l1 l2 = Raised e ->
  (e = IndexError /\
   exists line, line ∈ l1 ++ l2 /\ has_char colon line = false /\
                strip isspace line <> EmptyString) \/
  (exists pl ql n k prios,
     parseFile isspace l1 = Ok pl /\ parseFile isspace l2 = Ok ql /\
     e = KeyError n /\ (n ∉ ql.*1) /\ (k, prios) ∈ pl /\ n ∈ prios).
Proof.
  intros Hev. unfold run_files.
  destruct (parseFile isspace l1) as [pl|e1] eqn:H1.
  2:{ intros [= <-]. left. apply parseFile_Raise in H1 as (-> & l & Hin & Hl).
      split; [done|]. exists l. split; [|done]. apply elem_of_app. by left. }
  destruct (parseFile isspace l2) as [ql|e2] eqn:H2.
  2:{ intros [= <-]. left. apply parseFile_Raise in H2 as (-> & l & Hin & Hl).
      split; [done|]. exists l. split; [|done]. apply elem_of_app. by right. }
  intros Hl. right.
  assert (Hit : iterations evaluate fuel (init_state pl ql) = Raise e).
  { unfold loop in Hl.
    destruct (iterations evaluate fuel (init_state pl ql)) as [[t s]|e0];
      [by destruct (unmatched s)|congruence]. }
  assert (exists n k prios,
            e = KeyError n /\ (n ∉ ql.*1) /\ (k, prios) ∈ pl /\ n ∈ prios)
    as (n & k & prios & Hx).
  { destruct Hev as [->| ->].
    - by apply (run_raises _ evaluateProposal_ok evaluateProposal_total) in Hit.
    - by apply (run_raises _ evaluateGreedily_ok evaluateGreedily_total) in Hit. }
  exists pl, ql, n, k, prios. done.
Qed.

Lemma run_files_raises_witness :
  (IndexError = IndexError /\
   exists line, line ∈ ["A: X"; "B"] ++ ["X: A"] /\
                has_char colon line = false /\
                strip py_isspace line <> EmptyString) \/
  (exists pl ql n k prios,
     parseFile py_isspace ["A: X"; "B"] = Ok pl /\
     parseFile py_isspace ["X: A"] = Ok ql /\
     IndexError = KeyError n /\ (n ∉ ql.*1) /\ (k, prios) ∈ pl /\ n ∈ prios).
Proof.
  apply (run_files_raises py_isspace evaluateProposal 5 ["A: X"; "B"] ["X: A"]);
    [by left|vm_compute; reflexivity].
Defined.

(** ** Lines of the documented format *)

Lemma has_char_app c a b :
  has_char c (a ++ b)%string = has_char c a || has_char c b.
Proof. induction a as [|x a IH]; simpl; [done|]. by rewrite IH, orb_assoc. Qed.

Lemma string_app_assoc (a b c : string) :
  (a ++ (b ++ c))%string = ((a ++ b) ++ c)%string.
Proof.
  induction a as [|x a IH]; [done|].
  change (String x (a ++ (b ++ c))%string = String x ((a ++ b) ++ c)%string).
  by rewrite IH.
Qed.

Lemma split_on_app_sep sep a b :
  has_char sep a = false ->
  split_on sep (a ++ String sep b)%string = a :: split_on sep b.
Proof.
  induction a as [|c a IH]; simpl; intros H.
  - by rewrite Ascii.eqb_refl.
  - apply orb_false_iff in H as [Hc Ha]. rewrite Hc, (IH Ha). done.
Qed.

Lemma split_on_join sep ps :
  ps <> [] -> (forall p, p ∈ ps -> has_char sep p = false) ->
  split_on sep (join sep ps) = ps.
Proof.
  induction ps as [|p ps IH]; [done|]. intros _ Hall.
  assert (Hp : has_char sep p = false) by (apply Hall, elem_of_cons; by left).
  destruct ps as [|p' ps]; simpl.
  - by apply split_on_absent.
  - rewrite split_on_app_sep by done. f_equal. apply IH; [done|].
    intros x Hx. apply Hall, elem_of_cons. by right.
Qed.

Lemma has_char_join c sep ps :
  Ascii.eqb sep c = false -> (forall p, p ∈ ps -> has_char c p = false) ->
  has_char c (join sep ps) = false.
Proof.
  intros Hsep. induction ps as [|p ps IH]; [done|]. intros Hall.
  assert (Hp : has_char c p = false) by (apply Hall, elem_of_cons; by left).
  destruct ps as [|p' ps]; [done|].
  change (join sep (p :: p' :: ps)) with (p ++ String sep (join sep (p' :: ps)))%string.
  rewrite has_char_app, Hp. simpl. rewrite Hsep. simpl. apply IH.
  intros x Hx. apply Hall, elem_of_cons. by right.
Qed.

Section FormatFacts.
Variable isspace : Ascii.ascii -> bool.

Lemma all_space_has_char c w :
  isspace c = false -> all_space isspace w = true -> has_char c w = false.
Proof.
  intros Hc. induction w as [|x w IH]; simpl; [done|].
  intros H. apply andb_true_iff in H as [Hx Hw]. rewrite (IH Hw), orb_false_r.
  destruct (Ascii.eqb x c) eqn:Hxc; [|done].
  apply Ascii.eqb_eq in Hxc. congruence.
Qed.

Lemma lstrip_pad w s :
  all_space isspace w = true -> lstrip isspace (w ++ s)%string = lstrip isspace s.
Proof.
  induction w as [|x w IH]; simpl; [done|].
  intros H. apply andb_true_iff in H as [Hx Hw]. rewrite Hx. by apply IH.
Qed.

Lemma rstrip_all_space w :
  all_space isspace w = true -> rstrip isspace w = EmptyString.
Proof.
  induction w as [|x w IH]; simpl; [done|].
  intros H. apply andb_true_iff in H as [Hx Hw]. by rewrite (IH Hw), Hx.
Qed.

Lemma rstrip_pad s w :
  all_space isspace w = true -> rstrip isspace (s ++ w)%string = rstrip isspace s.
Proof.
  intros Hw. induction s as [|x s IH]; simpl.
  - by apply rstrip_all_space.
  - by rewrite IH.
Qed.

Lemma strip_pad w0 s w1 :
  all_space isspace w0 = true -> all_space isspace w1 = true ->
  strip isspace (w0 ++ s ++ w1)%string = strip isspace s.
Proof.
  intros H0 H1. unfold strip.
  rewrite <- !strip_comm, (lstrip_pad _ _ H0), !strip_comm.
  by rewrite (rstrip_pad _ _ H1).
Qed.

Lemma strip_fixed s :
  strip isspace s = s -> lstrip isspace s = s /\ rstrip isspace s = s.
Proof.
  intros H. split.
  - rewrite <- H at 1. unfold strip. by rewrite lstrip_idemp.
  - rewrite <- H at 1. unfold strip. by rewrite <- strip_comm, rstrip_idemp, strip_comm.
Qed.

Lemma rstrip_app_fixed a b :
  b <> EmptyString -> rstrip isspace b = b ->
  rstrip isspace (a ++ b)%string = (a ++ b)%string.
Proof.
  intros Hne Hb. induction a as [|x a IH]; [done|].
  change (String x a ++ b)%string with (String x (a ++ b)%string).
  simpl rstrip. rewrite IH. destruct (a ++ b)%string eqn:Hab; [|done].
  destruct a; [|done]. by change (b = EmptyString) in Hab.
Qed.

Lemma rstrip_cons_fixed c s :
  isspace c = false -> rstrip isspace s = s ->
  rstrip isspace (String c s) = String c s.
Proof. intros Hc Hs. simpl. rewrite Hs. destruct s; [by rewrite Hc|done]. Qed.

Lemma join_stripped ps :
  isspace comma = false ->
  (forall p, p ∈ ps -> strip isspace p = p) ->
  strip isspace (join comma ps) = join comma ps.
Proof.
  intros Hc Hall.
  assert (Hr : rstrip isspace (join comma ps) = join comma ps).
  { induction ps as [|p ps IH]; [done|].
    assert (Hp : rstrip isspace p = p).
    { apply strip_fixed, Hall, elem_of_cons. by left. }
    destruct ps as [|p' ps]; [done|].
    change (join comma (p :: p' :: ps))
      with (p ++ String comma (join comma (p' :: ps)))%string.
    apply rstrip_app_fixed; [done|]. apply rstrip_cons_fixed; [done|].
    apply IH. intros x Hx. apply Hall, elem_of_cons. by right. }
  unfold strip. rewrite Hr. destruct ps as [|p ps]; [done|].
  assert (Hp : lstrip isspace p = p).
  { apply strip_fixed, Hall, elem_of_cons. by left. }
  destruct ps as [|p' ps]; [done|].
  change (join comma (p :: p' :: ps))
    with (p ++ String comma (join comma (p' :: ps)))%string.
  destruct p as [|c p]; simpl in *.
  - by rewrite Hc.
  - destruct (isspace c) eqn:Hsc; [|done]. exfalso.
    assert (Hlen : String.length (lstrip isspace p) <= String.length p).
    { clear. induction p as [|x p IH]; simpl; [done|].
      destruct (isspace x); simpl; lia. }
    rewrite Hp in Hlen. simpl in Hlen. lia.
Qed.

Lemma parseLine_formats line entry :
  isspace colon = false -> isspace comma = false ->
  entry_ok isspace entry -> formats isspace line entry ->
  parseLine isspace line = Ok (Some entry).
Proof.
  intros Hcol Hcom (Hne & Hname & Hnc & Hids & Hall)
    (w0 & w1 & w2 & w3 & H0 & H1 & H2 & H3 & ->).
  destruct entry as [name ids]. simpl in *. unfold parseLine.
  assert (Hj : has_char colon (w2 ++ join comma ids ++ w3)%string = false).
  { rewrite !has_char_app, (all_space_has_char colon w2),
      (all_space_has_char colon w3) by done.
    rewrite ?orb_false_r, ?orb_false_l. apply has_char_join; [done|].
    intros p Hp. by apply Hall. }
  replace (w0 ++ name ++ w1 ++ String colon (w2 ++ join comma ids ++ w3))%string
    with ((w0 ++ name ++ w1) ++ String colon (w2 ++ join comma ids ++ w3))%string.
  2:{ by rewrite <- !string_app_assoc. }
  rewrite split_on_app_sep, (split_on_absent _ _ Hj).
  2:{ rewrite !has_char_app, (all_space_has_char colon w0),
        (all_space_has_char colon w1) by done.
      by rewrite Hnc. }
  simpl. rewrite !strip_pad by done. rewrite Hname.
  destruct (String.eqb name EmptyString) eqn:En.
  { apply String.eqb_eq in En. done. }
  simpl. rewrite join_stripped by (try done; intros p Hp; by apply Hall).
  rewrite split_on_join by (try done; intros p Hp; by apply Hall).
  do 3 f_equal. clear -Hall. induction ids as [|p ids IH]; [done|].
  csimpl. f_equal.
  - apply Hall, elem_of_cons. by left.
  - apply IH. intros x Hx. apply Hall, elem_of_cons. by right.
Qed.

Lemma parseFile_formats lines people :
  isspace colon = false -> isspace comma = false ->
  Forall2 (fun line entry =>
             entry_ok isspace entry /\ formats isspace line entry)
    lines people ->
  parseFile isspace lines = Ok people.
Proof.
  intros Hcol Hcom. induction 1 as [|line entry lines people [Hok Hf] _ IH];
    simpl; [done|].
  rewrite (parseLine_formats _ _ Hcol Hcom Hok Hf). simpl. by rewrite IH.
Qed.
End FormatFacts.

(** X18.  A file written in the documented format parses back to its
    entries: if every line is [name: id,id,...] (optional whitespace around
    the name, after the colon and at the end of the line) for an entry with
    a non-empty name, at least one identifier, no surrounding whitespace in
    name or identifiers, no colon anywhere and no comma in an identifier,
    then [parseFile] returns exactly those entries, in order. *)
Theorem parseFile_formatted isspace lines people :
  isspace colon = false -> isspace comma = false ->
  Forall2 (fun line entry =>
             entry_ok isspace entry /\ formats isspace line entry)
    lines people ->
  parseFile isspace lines = Ok people.
Proof. apply parseFile_formats. Qed.

Lemma parseFile_formatted_witness :
  parseFile py_isspace format_lines = Ok format_people.
Proof.
  apply (parseFile_formatted py_isspace format_lines format_people);
    [reflexivity|reflexivity|].
  constructor; [|constructor; [|constructor]].
  - split.
    + split_and!; try done. intros x Hx.
      apply elem_of_cons in Hx as [->|Hx]; [done|].
      apply list_elem_of_singleton in Hx as ->. done.
    + exists EmptyString, EmptyString, "     ", (String newline EmptyString).
      split_and!; reflexivity.
  - split.
    + split_and!; try done. intros x Hx.
      apply list_elem_of_singleton in Hx as ->. done.
    + exists EmptyString, EmptyString, EmptyString, EmptyString.
      split_and!; reflexivity.
Defined.

(** ** The greedy matching is maximal *)

Lemma evaluateGreedily_rejects (q : Proposee) (s : string) q' :
  evaluateGreedily q s = Ok (false, q') ->
  ranking q !! s = None \/ is_Some (partner q).
Proof.
  unfold evaluateGreedily. destruct (ranking q !! s); [|by left].
  destruct (partner q); [eauto|done].
Qed.

Lemma turned_down_step st e st' :
  turned_down st -> engine_step evaluateGreedily st e st' -> turned_down st'.
Proof.
  intros Htd Hs.
  destruct Hs as [k rest m Hu Hm Hp Hlen
                 |k rest m n who Hu Hm Hp Hn Hwho Hev
                 |k rest m n who rs Hu Hm Hp Hn Hwho Hev Hrs Hfq
                 |k rest m n who rs old mOld ro Hu Hm Hp Hn Hwho Hev Hrs Hold
                    Hok Hmo Hpo Hro Hlt];
    intros j mj i nj; simpl; intros Hj Hi Hnj.
  - eauto.
  - destruct (decide (j = k)) as [->|Hjk].
    + rewrite lookup_insert_eq in Hj. injection Hj as <-. simpl in *.
      destruct (decide (i = proposalIndex m)) as [->|Hidx].
      * right. rewrite Hn in Hnj. injection Hnj as <-. exists who.
        split; [done|]. by eapply evaluateGreedily_rejects.
      * eapply Htd; [done| |done]. lia.
    + rewrite lookup_insert_ne in Hj by done. eauto.
  - assert (Hq : forall n' (q : Proposee) x,
              proposees st !! n' = Some q ->
              ranking q !! x = None \/ is_Some (partner q) ->
              exists q', <[n:=engaged k (ranked rs who)]> (proposees st) !! n'
                         = Some q' /\
                         (ranking q' !! x = None \/ is_Some (partner q'))).
    { intros n' q x Hq Hc. destruct (decide (n' = n)) as [->|Hnn].
      - rewrite lookup_insert_eq. eexists. split; [done|]. simpl. eauto.
      - rewrite lookup_insert_ne by done. eauto. }
    destruct (decide (j = k)) as [->|Hjk].
    + rewrite lookup_insert_eq in Hj. injection Hj as <-. simpl in *.
      destruct (decide (i = proposalIndex m)) as [->|Hidx]; [left; congruence|].
      destruct (Htd k m i nj Hm) as [Hc|(q & Hq' & Hr)]; [lia|done|congruence|].
      right. eauto.
    + rewrite lookup_insert_ne in Hj by done.
      destruct (Htd j mj i nj Hj Hi Hnj) as [Hc|(q & Hq' & Hr)]; [by left|].
      right. eauto.
  - apply evaluateGreedily_accepts in Hev as [Hnone _]. congruence.
Qed.

Lemma run_turned_down pl ql fuel tr st :
  names_nonempty pl = true ->
  iterations evaluateGreedily fuel (init_state pl ql) = Ok (tr, st) ->
  turned_down st.
Proof.
  intros Hne H.
  apply (iterations_preserve evaluateGreedily
           (fun s => (wf s /\ matching s) /\ turned_down s)) in H;
    [by destruct H| |].
  - intros s e s' [[Hwf Hm] Htd] Hb.
    pose proof (body_engine_step _ evaluateGreedily_ok _ _ _ Hwf Hm Hb) as Hs.
    split_and!; [by eapply wf_body; [apply evaluateGreedily_ok|..]
                |by eapply matching_step|by eapply turned_down_step].
  - split_and!; [apply init_state_wf|by apply init_state_matching|].
    intros k m i n Hk Hi. simpl in Hk.
    apply build_dict_lookup in Hk as (prio & _ & ->). simpl in Hi. lia.
Qed.

(** X19.  When [doGreedyMatch] finishes (proposer names non-empty), the
    matching cannot be extended: if a proposer is left without partner,
    every proposee on its list that ranks it has a partner. *)
Theorem greedy_is_maximal pl ql fuel tr st p (m : Proposer) r (q : Proposee) :
  names_nonempty pl = true ->
  doGreedyMatch fuel pl ql = Finished tr st ->
  proposerPref st !! p = Some m -> partner m = None ->
  r ∈ priorities m -> proposees st !! r = Some q ->
  is_Some (ranking q !! p) -> is_Some (partner q).
Proof.
  intros Hne Hl Hm Hp Hr Hq Hrk. apply loop_Finished in Hl as [Hit Hdone].
  pose proof (run_turned_down _ _ _ _ _ Hne Hit) as Htd.
  pose proof (run_settled _ evaluateGreedily_ok _ _ _ _ _ Hit) as Hset.
  apply list_elem_of_lookup in Hr as [i Hi].
  destruct (Hset _ _ Hm) as [Hu|[[x Hx]|Hex]].
  - rewrite Hdone in Hu. by apply elem_of_nil in Hu.
  - congruence.
  - apply lookup_lt_Some in Hi as Hlt.
    destruct (Htd p m i r Hm) as [Hc|(q' & Hq' & Hc)]; [lia|done|congruence|].
    rewrite Hq in Hq'. injection Hq' as <-.
    destruct Hc as [Hnone|Hsome]; [|done]. rewrite Hnone in Hrk.
    by destruct Hrk.
Qed.

Lemma greedy_is_maximal_witness :
  is_Some
    (partner
       (proposee_at
          (state_after evaluateGreedily 3 scen3_proposers scen3_proposees)
          "X")).
Proof.
  apply (greedy_is_maximal scen3_proposers scen3_proposees 3
           [Accepts "X" "A" None; Rejects "X" "B"; NoMoreOptions "B"]
           (state_after evaluateGreedily 3 scen3_proposers scen3_proposees)
           "B"
           (proposer_at
              (state_after evaluateGreedily 3 scen3_proposers scen3_proposees)
              "B")
           "X");
    [reflexivity|vm_compute; reflexivity|vm_compute; reflexivity|reflexivity
    |vm_compute; apply elem_of_cons; by left|vm_compute; reflexivity
    |vm_compute; eauto].
Defined.
